(** * Leisure-time projects: the port scanner, the live reloader and the
      concurrent task executor

    A shallow embedding of the two programs of [port-scanner/main.go] and of
    [concurrent-task-workers/main.go].  Goroutines are threads of an
    interleaving machine: every channel operation, every atomic operation
    on [jobcounter], every [sync.WaitGroup] and [sync.Mutex] call is one
    step of the thread that performs it, and a blocked operation is a step
    that is not enabled.  All shared accesses of the two programs go through
    channels, atomics, the mutex or the wait group, so the interleavings of
    these steps are the behaviours of the Go programs. *)

From Stdlib Require Import ZArith List Lia Permutation Sorted.
From stdpp Require Import base tactics option list gmap strings pretty sorting.

Local Open Scope Z_scope.

(** ** The Go runtime pieces both programs use *)

Module Go.

(** [int] on the 64-bit targets, and [int32]: signed, wrapping. *)
Definition wrap (bits : Z) (x : Z) : Z :=
  (x + 2 ^ (bits - 1)) mod 2 ^ bits - 2 ^ (bits - 1).

Definition wrap64 : Z -> Z := wrap 64.
Definition wrap32 : Z -> Z := wrap 32.

Definition MaxInt64 : Z := 2 ^ 63 - 1.
Definition MinInt64 : Z := - 2 ^ 63.

Definition is_int64 (x : Z) : Prop := MinInt64 <= x <= MaxInt64.

(** A channel [make(chan T, cap)]: the buffered values in arrival order
    and the closed flag.  A send needs room in the buffer, a receive takes
    the oldest value, and a receive on a closed, drained channel reports
    [more = false].  The hand-over of an unbuffered channel (capacity 0)
    between a sender and a waiting receiver is not part of this model:
    with capacity 0 a send is never enabled. *)
Record Chan (T : Type) : Type := MkChan {
  buf : list T;
  cap : Z;
  closed : bool
}.
Arguments MkChan {T} _ _ _.
Arguments buf {T} _.
Arguments cap {T} _.
Arguments closed {T} _.

(** What a statement does: go on with a value, or panic. *)
Inductive outcome (A : Type) : Type :=
| Normal (a : A)
| Panic (msg : string).
Arguments Normal {A} _.
Arguments Panic {A} _.

(** [make(chan T, size)]: a negative size is a run-time panic.  (So is a
    size whose buffer is too large to allocate; that limit depends on the
    platform and is left out: the model makes such a channel.) *)
Definition make_chan {T : Type} (size : Z) : outcome (Chan T) :=
  if size <? 0 then Panic "makechan: size out of range"
  else Normal (MkChan [] size false).

Definition has_room {T : Type} (c : Chan T) : bool :=
  Z.of_nat (length (buf c)) <? cap c.

Definition push {T : Type} (x : T) (c : Chan T) : Chan T :=
  MkChan (buf c ++ [x]) (cap c) (closed c).

Definition pop {T : Type} (c : Chan T) : Chan T :=
  MkChan (tail (buf c)) (cap c) (closed c).

Definition close_chan {T : Type} (c : Chan T) : Chan T :=
  MkChan (buf c) (cap c) true.

End Go.

Import Go.

(** ** port-scanner/main.go *)

Module PortScanner.

Record ScanResult : Type := MkScanResult {
  Port : Z;
  Open : bool;
  Service : string
}.

Record PortScanner : Type := MkPortScanner {
  host : string;
  timeout : Z;      (* time.Duration, in nanoseconds *)
  workers : Z
}.

Definition commonPorts : gmap Z string :=
  list_to_map
    [ (20, "FTP Data"); (21, "FTP Control"); (22, "SSH"); (23, "Telnet");
      (25, "SMTP"); (53, "DNS"); (80, "HTTP"); (110, "POP3"); (143, "IMAP");
      (443, "HTTPS"); (445, "SMB"); (3306, "MySQL"); (3389, "RDP");
      (5432, "PostgreSQL"); (5900, "VNC") ]%string.

Definition NewPortScanner (h : string) (t : Z) (w : Z) : PortScanner :=
  MkPortScanner h t w.

(** The network as [ScanPort] meets it: [net.DialTimeout] answers with a
    connection or with an error, and what was done to the network is
    recorded as a trace. *)
Inductive Conn : Type := MkConn (remote : string).

Inductive DialResult : Type :=
| DialOk (conn : Conn)
| DialErr (err : string).

Definition Network : Type := string -> string -> Z -> DialResult.

Inductive NetEvent : Type :=
| EvDial (network address : string) (tmo : Z)
| EvClose (conn : Conn).

(** [fmt.Sprintf("%s:%d", ps.host, port)] *)
Definition address (ps : PortScanner) (port : Z) : string :=
  (host ps +:+ ":" +:+ pretty port)%string.

(** A missing key of a Go map reads as the zero value. *)
Definition service_of (port : Z) : string :=
  default ""%string (commonPorts !! port).

Definition ScanPort (net : Network) (ps : PortScanner) (port : Z)
  : ScanResult * list NetEvent :=
  let address := address ps port in
  let dialled := net "tcp"%string address (timeout ps) in
  let result := MkScanResult port false (service_of port) in
  match dialled with
  | DialOk conn =>
      (MkScanResult (Port result) true (Service result),
       [EvDial "tcp" address (timeout ps); EvClose conn])
  | DialErr _ =>
      (result, [EvDial "tcp" address (timeout ps)])
  end.

(** [sort.Slice(scanResults, func(i, j int) bool { return
    scanResults[i].Port < scanResults[j].Port })].  The library sorts short
    slices by insertion and long ones by pattern-defeating quicksort; the
    outcome is an ordering of the slice by [less], which is what the
    insertion sort below computes (results with equal ports may come in
    another order from the quicksort). *)
Definition less (a b : ScanResult) : bool := Port a <? Port b.

Fixpoint insert_by (x : ScanResult) (l : list ScanResult) : list ScanResult :=
  match l with
  | [] => [x]
  | y :: l' => if less x y then x :: y :: l' else y :: insert_by x l'
  end.

Definition sort_Slice (l : list ScanResult) : list ScanResult :=
  foldr insert_by [] l.

(** *** The goroutines of a scan

    [ScanRange] and [ScanSpecificPorts] run the same goroutines: the
    calling goroutine, [ps.workers] workers, one goroutine that sends the
    jobs and one that closes [results] once the wait group is at zero.
    They differ in the sender only. *)

Inductive MainPc : Type :=
| MLoop (i : Z)            (* for i := 0; i < ps.workers; i++ { wg.Add(1) *)
| MGoWorker (i : Z)        (*   go func() { ... }() } *)
| MGoSender                (* go func() { ... jobs <- port ... }() *)
| MGoCloser                (* go func() { wg.Wait(); close(results) }() *)
| MCollect (scanResults : list ScanResult)   (* for result := range results *)
| MSort (scanResults : list ScanResult)      (* sort.Slice(...) *)
| MReturned (scanResults : list ScanResult). (* return scanResults *)

Inductive WorkerPc : Type :=
| WRecv                    (* for port := range jobs *)
| WScan (port : Z)         (* ps.ScanPort(port) *)
| WSend (r : ScanResult)   (* results <- ... *)
| WDone                    (* the deferred wg.Done() *)
| WExited.

Inductive SenderPc : Type :=
| SRange (port endPort : Z)   (* ScanRange: for port := startPort; port <= endPort; port++ *)
| SList (ports : list Z)      (* ScanSpecificPorts: for _, port := range ports; then close(jobs) *)
| SExited.

Inductive CloserPc : Type :=
| CWait                    (* wg.Wait() *)
| CClose                   (* close(results) *)
| CExited.

Record State : Type := MkState {
  jobs : Chan Z;
  results : Chan ScanResult;
  wg : Z;
  main : MainPc;
  pool : list WorkerPc;
  sender : option SenderPc;   (* None: not started yet *)
  closer : option CloserPc;
  crashed : option string     (* an unrecovered panic ends the program *)
}.

Definition with_jobs (c : Chan Z) (st : State) : State :=
  MkState c (results st) (wg st) (main st) (pool st) (sender st) (closer st) (crashed st).
Definition with_results (c : Chan ScanResult) (st : State) : State :=
  MkState (jobs st) c (wg st) (main st) (pool st) (sender st) (closer st) (crashed st).
Definition with_wg (n : Z) (st : State) : State :=
  MkState (jobs st) (results st) n (main st) (pool st) (sender st) (closer st) (crashed st).
Definition with_main (pc : MainPc) (st : State) : State :=
  MkState (jobs st) (results st) (wg st) pc (pool st) (sender st) (closer st) (crashed st).
Definition with_pool (ws : list WorkerPc) (st : State) : State :=
  MkState (jobs st) (results st) (wg st) (main st) ws (sender st) (closer st) (crashed st).
Definition with_sender (pc : SenderPc) (st : State) : State :=
  MkState (jobs st) (results st) (wg st) (main st) (pool st) (Some pc) (closer st) (crashed st).
Definition with_closer (pc : CloserPc) (st : State) : State :=
  MkState (jobs st) (results st) (wg st) (main st) (pool st) (sender st) (Some pc) (crashed st).
Definition crash (msg : string) (st : State) : State :=
  MkState (jobs st) (results st) (wg st) (main st) (pool st) (sender st) (closer st) (Some msg).

Inductive Thread : Type :=
| TMain
| TWorker (i : nat)
| TSender
| TCloser.

Section Machine.

Variable ps : PortScanner.
(** The sender goroutine as the scanning function writes it. *)
Variable body : SenderPc.

Definition step_main (st : State) : option State :=
  match main st with
  | MLoop i =>
      if i <? workers ps
      then Some (with_main (MGoWorker i) (with_wg (wg st + 1) st))
      else Some (with_main MGoSender st)
  | MGoWorker i =>
      (* i < ps.workers here, so i++ does not overflow *)
      Some (with_main (MLoop (i + 1)) (with_pool (pool st ++ [WRecv]) st))
  | MGoSender => Some (with_main MGoCloser (with_sender body st))
  | MGoCloser => Some (with_main (MCollect []) (with_closer CWait st))
  | MCollect acc =>
      match buf (results st) with
      | r :: _ =>
          Some (with_main (MCollect (acc ++ [r])) (with_results (pop (results st)) st))
      | [] =>
          if closed (results st) then Some (with_main (MSort acc) st) else None
      end
  | MSort acc => Some (with_main (MReturned (sort_Slice acc)) st)
  | MReturned _ => None
  end.

Definition step_worker (net : Network) (i : nat) (st : State) : option State :=
  match pool st !! i with
  | None => None
  | Some WRecv =>
      match buf (jobs st) with
      | port :: _ =>
          Some (with_pool (<[i := WScan port]> (pool st)) (with_jobs (pop (jobs st)) st))
      | [] =>
          if closed (jobs st)
          then Some (with_pool (<[i := WDone]> (pool st)) st)
          else None
      end
  | Some (WScan port) =>
      Some (with_pool (<[i := WSend (ScanPort net ps port).1]> (pool st)) st)
  | Some (WSend r) =>
      if closed (results st) then Some (crash "send on closed channel" st)
      else if has_room (results st)
      then Some (with_pool (<[i := WRecv]> (pool st))
                   (with_results (push r (results st)) st))
      else None
  | Some WDone =>
      if wg st - 1 <? 0 then Some (crash "sync: negative WaitGroup counter" st)
      else Some (with_pool (<[i := WExited]> (pool st)) (with_wg (wg st - 1) st))
  | Some WExited => None
  end.

Definition send_job (port : Z) (next : SenderPc) (st : State) : option State :=
  if closed (jobs st) then Some (crash "send on closed channel" st)
  else if has_room (jobs st)
  then Some (with_sender next (with_jobs (push port (jobs st)) st))
  else None.

Definition step_sender (st : State) : option State :=
  match sender st with
  | None => None
  | Some (SRange port endPort) =>
      if port <=? endPort
      then send_job port (SRange (wrap64 (port + 1)) endPort) st
      else Some (with_sender SExited st)
  | Some (SList (port :: rest)) => send_job port (SList rest) st
  | Some (SList []) =>
      if closed (jobs st) then Some (crash "close of closed channel" st)
      else Some (with_sender SExited (with_jobs (close_chan (jobs st)) st))
  | Some SExited => None
  end.

Definition step_closer (st : State) : option State :=
  match closer st with
  | None => None
  | Some CWait => if wg st =? 0 then Some (with_closer CClose st) else None
  | Some CClose =>
      if closed (results st) then Some (crash "close of closed channel" st)
      else Some (with_closer CExited (with_results (close_chan (results st)) st))
  | Some CExited => None
  end.

(** One step of thread [t]; [net] is how the network answers if the step
    is a [ScanPort].  [None]: the thread is blocked, has ended or does
    not exist, or the program has crashed. *)
Definition step (net : Network) (t : Thread) (st : State) : option State :=
  match crashed st with
  | Some _ => None
  | None =>
      match t with
      | TMain => step_main st
      | TWorker i => step_worker net i st
      | TSender => step_sender st
      | TCloser => step_closer st
      end
  end.

Definition Step (st st' : State) : Prop :=
  exists net t, step net t st = Some st'.

Fixpoint exec (net : Network) (sched : list Thread) (st : State) : option State :=
  match sched with
  | [] => Some st
  | t :: sched' =>
      match step net t st with
      | Some st' => exec net sched' st'
      | None => None
      end
  end.

End Machine.

(** The calling goroutine up to its first [go]: the two [make]s. *)
Definition start (size : Z) : outcome State :=
  match make_chan size with
  | Panic msg => Panic msg
  | Normal jobs =>
      match make_chan size with
      | Panic msg => Panic msg
      | Normal results =>
          Normal (MkState jobs results 0 (MLoop 0) [] None None None)
      end
  end.

(** [ScanRange(startPort, endPort)] *)
Definition ScanRange_size (startPort endPort : Z) : Z :=
  wrap64 (wrap64 (endPort - startPort) + 1).
Definition ScanRange_start (startPort endPort : Z) : outcome State :=
  start (ScanRange_size startPort endPort).
Definition ScanRange_sender (startPort endPort : Z) : SenderPc :=
  SRange startPort endPort.

(** [ScanSpecificPorts(ports)] *)
Definition ScanSpecificPorts_start (ports : list Z) : outcome State :=
  start (Z.of_nat (length ports)).
Definition ScanSpecificPorts_sender (ports : list Z) : SenderPc :=
  SList ports.

(** *** What the proofs about the scans are stated with *)

Definition reachable (ps : PortScanner) (body : SenderPc) (st0 st : State) : Prop :=
  rtc (Step ps body) st0 st.

(** Where the requested ports are at a given moment: not yet sent, in
    [jobs], with a worker, in [results], or already collected. *)
Definition worker_port (w : WorkerPc) : list Z :=
  match w with
  | WScan port => [port]
  | WSend r => [Port r]
  | _ => []
  end.

Definition held (ws : list WorkerPc) : list Z := concat (map worker_port ws).

Definition pending (ports : list Z) (s : option SenderPc) : list Z :=
  match s with
  | None => ports
  | Some (SList l) => l
  | Some _ => []
  end.

Definition collected (m : MainPc) : list ScanResult :=
  match m with
  | MCollect acc | MSort acc | MReturned acc => acc
  | _ => []
  end.

Definition in_flight (ports : list Z) (st : State) : list Z :=
  pending ports (sender st) ++ buf (jobs st) ++ held (pool st)
    ++ map Port (buf (results st)) ++ map Port (collected (main st)).

Definition live (w : WorkerPc) : bool :=
  match w with WExited => false | _ => true end.

Definition live_count (ws : list WorkerPc) : Z :=
  Z.of_nat (length (filter (fun w => live w = true) ws)).

(** 1 between a [wg.Add(1)] and the [go] that follows it. *)
Definition adding (m : MainPc) : Z :=
  match m with MGoWorker _ => 1 | _ => 0 end.

(** The invariant of [ScanSpecificPorts(ports)]. *)
Record Inv (ps : PortScanner) (ports : list Z) (st : State) : Prop := {
  inv_crashed : crashed st = None;
  inv_cap_jobs : cap (jobs st) = Z.of_nat (length ports);
  inv_cap_results : cap (results st) = Z.of_nat (length ports);
  inv_perm : in_flight ports st ≡ₚ ports;
  inv_wg : wg st = live_count (pool st) + adding (main st);
  inv_pool :
    match main st with
    | MLoop i | MGoWorker i => Z.of_nat (length (pool st)) = i
    | _ => workers ps <= Z.of_nat (length (pool st))
    end;
  inv_started :
    match main st with
    | MLoop _ | MGoWorker _ | MGoSender => sender st = None /\ closer st = None
    | MGoCloser => sender st <> None /\ closer st = None
    | MCollect _ => sender st <> None /\ closer st <> None
    | MSort _ | MReturned _ =>
        sender st <> None /\ closer st <> None
        /\ closed (results st) = true /\ buf (results st) = []
    end;
  inv_sender :
    match sender st with
    | None | Some (SList _) => closed (jobs st) = false
    | Some SExited => closed (jobs st) = true
    | Some (SRange _ _) => False
    end;
  inv_exit :
    WDone ∈ pool st \/ WExited ∈ pool st ->
    closed (jobs st) = true /\ buf (jobs st) = [];
  inv_closer :
    match closer st with
    | None | Some CWait => closed (results st) = false
    | Some CClose => closed (results st) = false /\ live_count (pool st) = 0
    | Some CExited => closed (results st) = true /\ live_count (pool st) = 0
    end;
  inv_sorted :
    match main st with
    | MReturned rs => StronglySorted Z.le (map Port rs)
    | _ => True
    end
}.

(** How many steps a scan of a list can still take. *)
Definition worker_weight (w : WorkerPc) : nat :=
  match w with
  | WRecv => 2 | WScan _ => 5 | WSend _ => 4 | WDone => 1 | WExited => 0
  end.

Definition sender_weight (s : SenderPc) : nat :=
  match s with
  | SList l => 5 * length l + 1
  | _ => 0
  end.

Definition closer_weight (c : option CloserPc) : nat :=
  match c with
  | None | Some CWait => 2
  | Some CClose => 1
  | Some CExited => 0
  end.

Definition main_weight (ps : PortScanner) (m : MainPc) : nat :=
  match m with
  | MLoop i => 4 * Z.to_nat (workers ps - i) + 5
  | MGoWorker i => 4 * Z.to_nat (workers ps - i - 1) + 8
  | MGoSender => 4
  | MGoCloser => 3
  | MCollect _ => 2
  | MSort _ => 1
  | MReturned _ => 0
  end%nat.

Definition measure (ps : PortScanner) (body : SenderPc) (st : State) : nat :=
  (main_weight ps (main st)
   + list_sum (map worker_weight (pool st))
   + sender_weight (default body (sender st))
   + closer_weight (closer st)
   + 4 * length (buf (jobs st))
   + length (buf (results st)))%nat.

(** The invariant of [ScanRange]: nobody closes [jobs]. *)
Record RangeInv (ps : PortScanner) (st : State) : Prop := {
  rinv_crashed : crashed st = None;
  rinv_jobs : closed (jobs st) = false;
  rinv_results : closed (results st) = false;
  rinv_sender : match sender st with Some (SList _) => False | _ => True end;
  rinv_no_done : WDone ∉ pool st;
  rinv_no_exited : WExited ∉ pool st;
  rinv_closer : closer st = None \/ (closer st = Some CWait /\ 1 <= wg st);
  rinv_main :
    match main st with
    | MLoop i => wg st = i /\ 0 <= i /\ closer st = None
    | MGoWorker i => wg st = i + 1 /\ 0 <= i /\ closer st = None
    | MGoSender | MGoCloser => workers ps <= wg st /\ closer st = None
    | MCollect _ => True
    | MSort _ | MReturned _ => False
    end
}.

(** The configuration of [main]: [NewPortScanner("localhost",
    500*time.Millisecond, 100)], and a network on which nothing listens. *)
Definition main_scanner : PortScanner :=
  NewPortScanner "localhost" 500000000 100.

Definition nothing_listens : Network :=
  fun _ _ _ => DialErr "connection refused".

Definition specificPorts : list Z := [22; 80; 443; 3000; 5432].

(** A scanner with two workers and one run of each scan on it, used as
    examples: the workers are spawned, worker 1 takes every port, the
    sender ends, the workers find [jobs] closed (or not), the results are
    collected. *)
Definition two_workers : PortScanner := NewPortScanner "localhost" 500000000 2.

Definition port_by_port (n : nat) : list Thread :=
  concat (repeat [TSender; TWorker 1; TWorker 1; TWorker 1] n).

Definition specific_run : list Thread :=
  repeat TMain 6 ++ port_by_port 5
    ++ [TSender; TWorker 1; TWorker 1; TWorker 0; TWorker 0; TMain; TCloser; TCloser]
    ++ repeat TMain 7.

Definition range_run : list Thread :=
  repeat TMain 6 ++ port_by_port 4 ++ [TSender] ++ repeat TMain 5.

(** A scanner without workers: the wait group is at zero from the start. *)
Definition no_workers : PortScanner := NewPortScanner "localhost" 500000000 0.


End PortScanner.

(** ** concurrent-task-workers/main.go *)

Module TaskExecutor.

Section Executor.

(** The result type of the jobs: [RType any]. *)
Variable RType : Type.

Record Task : Type := MkTask {
  id : Z;                  (* int32 *)
  job : unit -> RType;
  description : string
}.

Record TaskExecutor : Type := MkTaskExecutor {
  workers : Z;
  mu : bool;               (* sync.Mutex: true while held *)
  jobcounter : Z;          (* atomic.Int32 *)
  wg : Z;                  (* sync.WaitGroup counter *)
  jobs : Chan Task;
  results : gmap Z RType
}.

(** What the caller does with the executor once it has it: one calling
    goroutine, any sequence of calls. *)
Inductive Call : Type :=
| AddTask (job : unit -> RType) (description : string)
| Close
| BlockOn.

Inductive MainPc : Type :=
| MInitGo (workerid : Z)   (* for workerid := range workers { go TaskWorker(...) *)
| MInitAdd (workerid : Z)  (*   taskexecutor.wg.Add(1) } *)
| MIdle                    (* between two calls; InitializeTaskExecutor has returned *)
| MSend (task : Task)      (* AddTask: taskexecutor.jobs <- task *)
| MAdd                     (* AddTask: taskexecutor.jobcounter.Add(1) *)
| MCloseCheck              (* Close: for { if tasksexecutor.JobsDone() *)
| MCloseChan.              (* Close:   close(tasksexecutor.jobs); break *)

Inductive WorkerPc : Type :=
| WRecv                              (* task, more := <-taskexecutor.jobs *)
| WExec (task : Task)                (* returnValue := task.job() *)
| WLock (task : Task) (returnValue : RType)    (* taskexecutor.mu.Lock() *)
| WStore (task : Task) (returnValue : RType)   (* taskexecutor.results[task.id] = returnValue *)
| WUnlock                            (* taskexecutor.mu.Unlock() *)
| WLoad                              (* oldjobcounter := taskexecutor.jobcounter.Load() *)
| WSwap (oldjobcounter : Z)          (* taskexecutor.jobcounter.Swap(oldjobcounter - 1) *)
| WDone                              (* taskexecutor.wg.Done() *)
| WExited.

Record State : Type := MkState {
  te : TaskExecutor;
  main : MainPc;
  todo : list Call;          (* the calls the caller still makes *)
  pool : list WorkerPc;      (* the TaskWorker goroutines, by workerid *)
  crashed : option string;   (* an unrecovered panic ends the program *)
  (* history, read by no step *)
  received : list Task;          (* tasks taken from [jobs] by a worker *)
  written : list (Z * RType)     (* the writes [results[id] = v] so far *)
}.

Definition with_mu (b : bool) (e : TaskExecutor) : TaskExecutor :=
  MkTaskExecutor (workers e) b (jobcounter e) (wg e) (jobs e) (results e).
Definition with_jobcounter (n : Z) (e : TaskExecutor) : TaskExecutor :=
  MkTaskExecutor (workers e) (mu e) n (wg e) (jobs e) (results e).
Definition with_wg (n : Z) (e : TaskExecutor) : TaskExecutor :=
  MkTaskExecutor (workers e) (mu e) (jobcounter e) n (jobs e) (results e).
Definition with_jobs (c : Chan Task) (e : TaskExecutor) : TaskExecutor :=
  MkTaskExecutor (workers e) (mu e) (jobcounter e) (wg e) c (results e).
Definition with_results (m : gmap Z RType) (e : TaskExecutor) : TaskExecutor :=
  MkTaskExecutor (workers e) (mu e) (jobcounter e) (wg e) (jobs e) m.

Definition with_te (e : TaskExecutor) (st : State) : State :=
  MkState e (main st) (todo st) (pool st) (crashed st) (received st) (written st).
Definition with_main (pc : MainPc) (st : State) : State :=
  MkState (te st) pc (todo st) (pool st) (crashed st) (received st) (written st).
Definition with_todo (cs : list Call) (st : State) : State :=
  MkState (te st) (main st) cs (pool st) (crashed st) (received st) (written st).
Definition with_pool (ws : list WorkerPc) (st : State) : State :=
  MkState (te st) (main st) (todo st) ws (crashed st) (received st) (written st).
Definition crash (msg : string) (st : State) : State :=
  MkState (te st) (main st) (todo st) (pool st) (Some msg) (received st) (written st).
Definition log_received (t : Task) (st : State) : State :=
  MkState (te st) (main st) (todo st) (pool st) (crashed st) (received st ++ [t]) (written st).
Definition log_written (k : Z) (v : RType) (st : State) : State :=
  MkState (te st) (main st) (todo st) (pool st) (crashed st) (received st) (written st ++ [(k, v)]).

(** [InitializeTaskExecutor(workers)] up to its loop, handed the calls
    that its caller makes afterwards. *)
Definition InitializeTaskExecutor (workers : Z) (calls : list Call) : State :=
  let jobs := MkChan [] 10 false in
  let results : gmap Z RType := ∅ in
  let taskexecutor := MkTaskExecutor workers false 0 0 jobs results in
  MkState taskexecutor (MInitGo 0) calls [] None [] [].

Definition GetResults (st : State) : gmap Z RType := results (te st).

(** [None] stands for the zero value of [RType] that a missing key reads as. *)
Definition GetResultByTaskId (st : State) (taskid : Z) : option RType :=
  results (te st) !! taskid.

Definition JobsDone (st : State) : bool := jobcounter (te st) =? 0.

Definition step_main (st : State) : option State :=
  match main st with
  | MInitGo workerid =>
      if workerid <? workers (te st)
      then Some (with_main (MInitAdd workerid) (with_pool (pool st ++ [WRecv]) st))
      else Some (with_main MIdle st)
  | MInitAdd workerid =>
      Some (with_main (MInitGo (workerid + 1)) (with_te (with_wg (wg (te st) + 1) (te st)) st))
  | MIdle =>
      match todo st with
      | [] => None
      | AddTask job description :: rest =>
          let task := MkTask (jobcounter (te st)) job description in
          Some (with_main (MSend task) (with_todo rest st))
      | Close :: rest =>
          if JobsDone st
          then Some (with_main MCloseChan (with_todo rest st))
          else Some (with_main MCloseCheck (with_todo rest st))
      | BlockOn :: rest =>
          if wg (te st) =? 0 then Some (with_todo rest st) else None
      end
  | MSend task =>
      if closed (jobs (te st)) then Some (crash "send on closed channel" st)
      else if has_room (jobs (te st))
      then Some (with_main MAdd (with_te (with_jobs (push task (jobs (te st))) (te st)) st))
      else None
  | MAdd =>
      Some (with_main MIdle
              (with_te (with_jobcounter (wrap32 (jobcounter (te st) + 1)) (te st)) st))
  | MCloseCheck =>
      if JobsDone st then Some (with_main MCloseChan st) else Some st
  | MCloseChan =>
      if closed (jobs (te st)) then Some (crash "close of closed channel" st)
      else Some (with_main MIdle (with_te (with_jobs (close_chan (jobs (te st))) (te st)) st))
  end.

(** [TaskWorker(taskexecutor, workerid)] *)
Definition step_worker (i : nat) (st : State) : option State :=
  let goto pc st := with_pool (<[i := pc]> (pool st)) st in
  match pool st !! i with
  | None => None
  | Some WRecv =>
      match buf (jobs (te st)) with
      | task :: _ =>
          Some (goto (WExec task)
                  (log_received task (with_te (with_jobs (pop (jobs (te st))) (te st)) st)))
      | [] => if closed (jobs (te st)) then Some (goto WDone st) else None
      end
  | Some (WExec task) => Some (goto (WLock task (job task tt)) st)
  | Some (WLock task returnValue) =>
      if mu (te st) then None
      else Some (goto (WStore task returnValue) (with_te (with_mu true (te st)) st))
  | Some (WStore task returnValue) =>
      Some (goto WUnlock
              (log_written (id task) returnValue
                 (with_te (with_results (<[id task := returnValue]> (results (te st))) (te st)) st)))
  | Some WUnlock =>
      if mu (te st) then Some (goto WLoad (with_te (with_mu false (te st)) st))
      else Some (crash "sync: unlock of unlocked mutex" st)
  | Some WLoad => Some (goto (WSwap (jobcounter (te st))) st)
  | Some (WSwap oldjobcounter) =>
      Some (goto WRecv (with_te (with_jobcounter (wrap32 (oldjobcounter - 1)) (te st)) st))
  | Some WDone =>
      if wg (te st) - 1 <? 0 then Some (crash "sync: negative WaitGroup counter" st)
      else Some (goto WExited (with_te (with_wg (wg (te st) - 1) (te st)) st))
  | Some WExited => None
  end.

Inductive Thread : Type :=
| TMain
| TWorker (i : nat).

Definition step (t : Thread) (st : State) : option State :=
  match crashed st with
  | Some _ => None
  | None =>
      match t with
      | TMain => step_main st
      | TWorker i => step_worker i st
      end
  end.

Definition Step (st st' : State) : Prop := exists t, step t st = Some st'.

Fixpoint exec (sched : list Thread) (st : State) : option State :=
  match sched with
  | [] => Some st
  | t :: sched' =>
      match step t st with
      | Some st' => exec sched' st'
      | None => None
      end
  end.

End Executor.

Arguments MkTask {RType} _ _ _.
Arguments id {RType} _.
Arguments job {RType} _ _.
Arguments description {RType} _.
Arguments workers {RType} _.
Arguments mu {RType} _.
Arguments jobcounter {RType} _.
Arguments wg {RType} _.
Arguments jobs {RType} _.
Arguments results {RType} _.
Arguments AddTask {RType} _ _.
Arguments Close {RType}.
Arguments BlockOn {RType}.
Arguments MInitGo {RType} _.
Arguments MInitAdd {RType} _.
Arguments MIdle {RType}.
Arguments MSend {RType} _.
Arguments MAdd {RType}.
Arguments MCloseCheck {RType}.
Arguments MCloseChan {RType}.
Arguments WRecv {RType}.
Arguments WExec {RType} _.
Arguments WLock {RType} _ _.
Arguments WStore {RType} _ _.
Arguments WUnlock {RType}.
Arguments WLoad {RType}.
Arguments WSwap {RType} _.
Arguments WDone {RType}.
Arguments WExited {RType}.
Arguments te {RType} _.
Arguments main {RType} _.
Arguments todo {RType} _.
Arguments pool {RType} _.
Arguments crashed {RType} _.
Arguments received {RType} _.
Arguments written {RType} _.
Arguments InitializeTaskExecutor {RType} _ _.
Arguments GetResults {RType} _.
Arguments GetResultByTaskId {RType} _ _.
Arguments JobsDone {RType} _.
Arguments step_main {RType} _.
Arguments step_worker {RType} _ _.
Arguments step {RType} _ _.
Arguments Step {RType} _ _.
Arguments exec {RType} _ _.

(** *** What the proofs about the executor are stated with *)

Section Invariant.

Context {RType : Type}.

Definition reachable (st0 st : State RType) : Prop := rtc Step st0 st.

Definition live (w : WorkerPc RType) : bool :=
  match w with WExited => false | _ => true end.

Definition live_count (ws : list (WorkerPc RType)) : Z :=
  Z.of_nat (length (filter (fun w => live w = true) ws)).

(** 1 between a [go TaskWorker(...)] and the [wg.Add(1)] after it. *)
Definition adding (m : MainPc RType) : Z :=
  match m with MInitAdd _ => 1 | _ => 0 end.

(** The worker has taken [t] from the queue and not yet stored its result. *)
Definition carries (pc : WorkerPc RType) (t : Task RType) : Prop :=
  pc = WExec t \/ pc = WLock t (job t tt) \/ pc = WStore t (job t tt).

Record Inv (st : State RType) : Prop := {
  inv_wg : wg (te st) + adding (main st) = live_count (pool st);
  inv_exit :
    WDone ∈ pool st \/ WExited ∈ pool st -> closed (jobs (te st)) = true;
  inv_received :
    forall t, t ∈ received st ->
      (id t, job t tt) ∈ written st
      \/ exists pc, pc ∈ pool st /\ carries pc t;
  inv_written :
    forall k v, (k, v) ∈ written st -> is_Some (results (te st) !! k)
}.

End Invariant.

(** *** Runs used as examples: one worker, jobs that return 111 and 222 *)

Definition job111 : unit -> Z := fun _ => 111.
Definition job222 : unit -> Z := fun _ => 222.

Definition two_tasks : list (Call Z) :=
  [AddTask job111 "first"; AddTask job222 "second"; Close; BlockOn].

(** The worker from its receive to its [Swap]. *)
Definition worker_round (i : nat) : list Thread := repeat (TWorker i) 7.

(** [InitializeTaskExecutor(1)] returns: go, Add, loop exit. *)
Definition init_one : list Thread := [TMain; TMain; TMain].

(** The first task up to its result being stored: [AddTask] complete, the
    worker at its [Unlock]. *)
Definition first_stored : list Thread :=
  init_one ++ [TMain; TMain; TMain] ++ repeat (TWorker 0) 4.

(** The worker finishes the first task, the second goes the same way,
    then [Close] and the worker's exit. *)
Definition then_second : list Thread :=
  repeat (TWorker 0) 3 ++ [TMain; TMain; TMain] ++ worker_round 0
    ++ [TMain; TMain] ++ [TWorker 0; TWorker 0].

Definition until_BlockOn : list Thread := first_stored ++ then_second.

(** Both tasks one after the other, each finished by the worker before
    the caller goes on; then [Close], the worker's exit, [BlockOn]. *)
Definition one_by_one : list Thread := until_BlockOn ++ [TMain].

(** The worker finishes the first task before [AddTask] has reached its
    [jobcounter.Add(1)]. *)
Definition done_before_add : list Thread :=
  init_one ++ [TMain; TMain] ++ worker_round 0.

(** [Close(); Close()] on an executor without tasks. *)
Definition close_twice : list (Call Z) := [Close; Close].

Definition first_Close : list Thread := init_one ++ [TMain; TMain].

(** Two workers, both tasks added, both workers read [jobcounter] before
    either writes it back. *)
Definition both_load_first : list Thread :=
  repeat TMain 5 ++ repeat TMain 6
    ++ repeat (TWorker 0) 6 ++ repeat (TWorker 1) 7 ++ [TWorker 0].

End TaskExecutor.

(** ** port-scanner/main.go: scanCommonPorts and PrintResults *)

Module PortScannerMore.

Import PortScanner.








(** The results a state holds: about to be sent, in [results], collected. *)
Definition worker_result (w : WorkerPc) : list ScanResult :=
  match w with
  | WSend r => [r]
  | _ => []
  end.

Definition produced (st : State) : list ScanResult :=
  concat (map worker_result (pool st)) ++ buf (results st) ++ collected (main st).

Definition labelled (r : ScanResult) : Prop := Service r = service_of (Port r).

(** The invariant of a scan on a scanner without workers. *)
Record IdleInv (st : State) : Prop := {
  idle_pool : pool st = [];
  idle_results : buf (results st) = [];
  idle_collected : collected (main st) = [];
  idle_loop :
    match main st with
    | MLoop i => 0 <= i
    | MGoWorker _ => False
    | _ => True
    end
}.

(** [PrintResults(results, showClosed)]: the lines written to standard
    output, and the two counters as they stand after the loop. *)
Definition rule : string :=
  "===============================================================".

Definition open_line (r : ScanResult) : string :=
  let service := if decide (Service r = ""%string) then "Unknown"%string else Service r in
  ("Port " +:+ pretty (Port r) +:+ " is OPEN - " +:+ service)%string.

Definition closed_line (r : ScanResult) : string :=
  ("Port " +:+ pretty (Port r) +:+ " is CLOSED")%string.

(** The line, if any, that the loop of [PrintResults] writes for one result. *)
Definition report_line (showClosed : bool) (r : ScanResult) : list string :=
  if Open r then [open_line r]
  else if showClosed then [closed_line r] else [].

Record Report : Type := MkReport {
  openCount : Z;
  closedCount : Z;
  lines : list string
}.

Fixpoint PrintResults_loop (results : list ScanResult) (showClosed : bool)
    (acc : Report) : Report :=
  match results with
  | [] => acc
  | result :: rest =>
      PrintResults_loop rest showClosed
        (if Open result
         then MkReport (openCount acc + 1) (closedCount acc)
                (lines acc ++ [open_line result])
         else MkReport (openCount acc) (closedCount acc + 1)
                (if showClosed then lines acc ++ [closed_line result] else lines acc))
  end.

Definition PrintResults (results : list ScanResult) (showClosed : bool) : Report :=
  let header := [""%string; rule; "PORT SCAN RESULTS"%string; rule] in
  let body := PrintResults_loop results showClosed (MkReport 0 0 header) in
  MkReport (openCount body) (closedCount body)
    (lines body
       ++ [ rule;
            ("Total Ports Scanned: " +:+ pretty (Z.of_nat (length results)))%string;
            ("Open: " +:+ pretty (openCount body) +:+ " | Closed: "
               +:+ pretty (closedCount body))%string;
            rule ]).

(** *** ScanRange: where the ports of the range are *)








End PortScannerMore.

(** ** concurrent-task-workers/main.go: what the executor keeps *)

Module TaskExecutorMore.

Import TaskExecutor.

Section More.

Context {RType : Type}.

(** The worker holds the mutex: between its [Lock] and its [Unlock]. *)
Definition critical (pc : WorkerPc RType) : bool :=
  match pc with
  | WStore _ _ | WUnlock => true
  | _ => false
  end.

Definition critical_count (ws : list (WorkerPc RType)) : Z :=
  Z.of_nat (length (filter (fun w => critical w = true) ws)).

Definition initializing (m : MainPc RType) : bool :=
  match m with
  | MInitGo _ | MInitAdd _ => true
  | _ => false
  end.

(** The two panics that the caller's own calls can raise. *)
Definition caller_panic (msg : string) : Prop :=
  msg = "send on closed channel"%string \/ msg = "close of closed channel"%string.

Record Safe (st : State RType) : Prop := {
  safe_inv : Inv st;
  safe_mutex : critical_count (pool st) = if mu (te st) then 1 else 0;
  safe_init : initializing (main st) = true -> closed (jobs (te st)) = false;
  safe_crash : forall msg, crashed st = Some msg -> caller_panic msg;
  safe_cap : cap (jobs (te st)) = 10;
  safe_room : Z.of_nat (length (buf (jobs (te st)))) <= 10
}.

(** The task a worker is working on, with the value it has computed. *)
Definition in_hand (pc : WorkerPc RType) : option (Task RType * option RType) :=
  match pc with
  | WExec t => Some (t, None)
  | WLock t v | WStore t v => Some (t, Some v)
  | _ => None
  end.

Record Sound (st : State RType) : Prop := {
  sound_hand :
    forall pc t ov, pc ∈ pool st -> in_hand pc = Some (t, ov) ->
      t ∈ received st /\ forall v, ov = Some v -> v = job t tt;
  sound_results :
    forall k v, results (te st) !! k = Some v ->
      exists t, t ∈ received st /\ id t = k /\ v = job t tt
}.

(** What the caller hands to [AddTask]. *)
Definition payload (t : Task RType) : (unit -> RType) * string :=
  (job t, description t).

Fixpoint submissions (calls : list (Call RType)) : list ((unit -> RType) * string) :=
  match calls with
  | [] => []
  | AddTask job description :: rest => (job, description) :: submissions rest
  | _ :: rest => submissions rest
  end.

(** The task that [AddTask] is about to send. *)
Definition sending (m : MainPc RType) : list (Task RType) :=
  match m with
  | MSend t => [t]
  | _ => []
  end.

(** The tasks made so far, in the order in which they went or go through
    the queue: taken by a worker, waiting in [jobs], about to be sent. *)
Definition dispatched (st : State RType) : list (Task RType) :=
  received st ++ buf (jobs (te st)) ++ sending (main st).

(** Those, followed by what the calls still to come will add. *)
Definition requested (st : State RType) : list ((unit -> RType) * string) :=
  map payload (dispatched st) ++ submissions (todo st).

End More.

(** *** Jobs that panic

    [task.job()] calls a function of the caller.  The steps of
    [TaskExecutor] take it to return its value; here it may panic
    instead: [panics job] is then the value it panics with (for a nil
    func the run-time's nil dereference).  [TaskWorker] has no [recover]
    and a deferred [recover] of the caller does not reach another
    goroutine, so that panic ends the program like any other. *)
Section Panicking.

Context {RType : Type}.
Variable panics : (unit -> RType) -> option string.






End Panicking.

(** A run used as an example: [Close] first, [AddTask] afterwards. *)
Definition add_after_close : list (Call Z) := [Close; AddTask job111 "late"].


End TaskExecutorMore.

(** ** The live reloader (the second program of port-scanner/main.go)

    [os.ReadFile] and [filepath.WalkDir] are answered by the file system,
    which may answer differently at every step; [crypto/sha256] is a
    function from the bytes read to the string that is stored.  The ticker
    is always ready, and nothing ever sends on or closes [done]. *)

Module LiveReloader.

Import Go.

Record LiveReloader : Type := MkLiveReloader {
  dirpath : string;
  changes : Chan string;
  filehashes : gmap string string     (* the sync.Map *)
}.

Definition New (dir : string) : LiveReloader :=
  MkLiveReloader dir (MkChan [] 10 false) ∅.

Definition GetDir (livereloader : LiveReloader) : string := dirpath livereloader.

(** What the program writes with [log.Println]. *)
Inductive Line : Type :=
| Starting                        (* "Starting the Live Reloader" *)
| ErrorOccured (err : string)     (* check: "Error Occured: ", err *)
| Changed (filepath : string)     (* "Changed: ", filepath *)
| Rerunning.                      (* "Rerunning application" *)

(** One call that [WalkDir] makes to its function: with an entry and no
    error, or with an error. *)
Inductive Visit : Type :=
| Entry (path : string) (IsDir : bool)
| Failed (path : string) (err : string).

Record FileSystem : Type := MkFileSystem {
  ReadFile : string -> list Byte.byte * option string;   (* the bytes, and err *)
  WalkDir : string -> list Visit     (* the visits, as long as none returns an error *)
}.

Inductive MainPc : Type :=
| MTick                      (* select: case <-ticker.C *)
| MWalk (rest : list Visit). (* inside fp.WalkDir *)

Inductive ReaderPc : Type :=
| RRecv                        (* filepath := <-livereloader.changes *)
| RChanged (filepath : string) (* log.Println("Changed: ", filepath) *)
| RRerun.                      (* log.Println("Rerunning application") *)

Inductive MonitorPc : Type :=
| MoRead (path : string)                  (* c, err := os.ReadFile(path) *)
| MoCheck (path : string) (c : list Byte.byte) (err : option string)
                                          (* check(err); the hashing step *)
| MoLoad (path : string) (bs : string)    (* hashvalue, exists := filehashes.Load(path) *)
| MoSend (path : string) (bs : string)    (* livereloader.changes <- path *)
| MoStore (path : string) (bs : string)   (* filehashes.Store(path, string(bs)) *)
| MoExited.

Record State : Type := MkState {
  lr : LiveReloader;
  main : MainPc;
  reader : ReaderPc;              (* GetFileChangesFromChannel *)
  monitors : list MonitorPc;      (* the MonitorFileChanges goroutines *)
  log : list Line
}.

Definition with_changes (c : Chan string) (st : State) : State :=
  MkState (MkLiveReloader (dirpath (lr st)) c (filehashes (lr st)))
    (main st) (reader st) (monitors st) (log st).
Definition with_filehashes (m : gmap string string) (st : State) : State :=
  MkState (MkLiveReloader (dirpath (lr st)) (changes (lr st)) m)
    (main st) (reader st) (monitors st) (log st).
Definition with_main (pc : MainPc) (st : State) : State :=
  MkState (lr st) pc (reader st) (monitors st) (log st).
Definition with_reader (pc : ReaderPc) (st : State) : State :=
  MkState (lr st) (main st) pc (monitors st) (log st).
Definition with_monitors (ms : list MonitorPc) (st : State) : State :=
  MkState (lr st) (main st) (reader st) ms (log st).
Definition Println (l : Line) (st : State) : State :=
  MkState (lr st) (main st) (reader st) (monitors st) (log st ++ [l]).

(** [check(err)] *)
Definition check (err : option string) (st : State) : State :=
  match err with
  | Some e => Println (ErrorOccured e) st
  | None => st
  end.

(** [VisitDir(livereloader, path, d, err)]: the error it returns, and the
    goroutine it has started. *)
Definition VisitDir (v : Visit) (st : State) : option string * State :=
  match v with
  | Failed _ err => (Some err, st)
  | Entry path IsDir =>
      if negb IsDir
      then (None, with_monitors (monitors st ++ [MoRead path]) st)
      else (None, st)
  end.

(** [main] after its set-up: [New(dir)], the reader started, the ticker
    made, the first line logged. *)
Definition start (dir : string) : State :=
  MkState (New dir) MTick RRecv [] [Starting].

Section Machine.

Variable sha256 : list Byte.byte -> string.
Variable fs : FileSystem.

(** The loop of [main]; [WalkDir] stops at the first error that
    [VisitDir] returns, and [main] drops that error. *)
Definition step_main (st : State) : option State :=
  match main st with
  | MTick => Some (with_main (MWalk (WalkDir fs (GetDir (lr st)))) st)
  | MWalk [] => Some (with_main MTick st)
  | MWalk (v :: rest) =>
      match VisitDir v st with
      | (Some _, st') => Some (with_main MTick st')
      | (None, st') => Some (with_main (MWalk rest) st')
      end
  end.

(** [GetFileChangesFromChannel] with the function that [main] gives it. *)
Definition step_reader (st : State) : option State :=
  match reader st with
  | RRecv =>
      match buf (changes (lr st)) with
      | filepath :: _ =>
          Some (with_reader (RChanged filepath) (with_changes (pop (changes (lr st))) st))
      | [] => None
      end
  | RChanged filepath => Some (with_reader RRerun (Println (Changed filepath) st))
  | RRerun => Some (with_reader RRecv (Println Rerunning st))
  end.

(** [MonitorFileChanges(livereloader, path)] *)
Definition step_monitor (i : nat) (st : State) : option State :=
  let goto pc st := with_monitors (<[i := pc]> (monitors st)) st in
  match monitors st !! i with
  | None => None
  | Some (MoRead path) =>
      let '(c, err) := ReadFile fs path in
      Some (goto (MoCheck path c err) st)
  | Some (MoCheck path c err) => Some (goto (MoLoad path (sha256 c)) (check err st))
  | Some (MoLoad path bs) =>
      match filehashes (lr st) !! path with
      | Some hashvalue =>
          if bool_decide (hashvalue = bs)
          then Some (goto (MoStore path bs) st)
          else Some (goto (MoSend path bs) st)
      | None => Some (goto (MoStore path bs) st)
      end
  | Some (MoSend path bs) =>
      if has_room (changes (lr st))
      then Some (goto (MoStore path bs) (with_changes (push path (changes (lr st))) st))
      else None
  | Some (MoStore path bs) =>
      Some (goto MoExited (with_filehashes (<[path := bs]> (filehashes (lr st))) st))
  | Some MoExited => None
  end.

Inductive Thread : Type :=
| TMain
| TReader
| TMonitor (i : nat).

Definition step (t : Thread) (st : State) : option State :=
  match t with
  | TMain => step_main st
  | TReader => step_reader st
  | TMonitor i => step_monitor i st
  end.

Fixpoint exec (sched : list Thread) (st : State) : option State :=
  match sched with
  | [] => Some st
  | t :: sched' =>
      match step t st with
      | Some st' => exec sched' st'
      | None => None
      end
  end.

End Machine.

(** A step under some answer of the file system ... *)
Definition Step (sha256 : list Byte.byte -> string) (st st' : State) : Prop :=
  exists fs t, step sha256 fs t st = Some st'.

(** ... and one while the files keep the contents [read]; what the
    directory walk finds may still differ from step to step. *)
Definition Step_reading (sha256 : list Byte.byte -> string)
    (read : string -> list Byte.byte * option string) (st st' : State) : Prop :=
  exists walk t, step sha256 (MkFileSystem read walk) t st = Some st'.

(** The paths on their way to the log: held by a sender, in the channel,
    held by the reader. *)
Definition reporting (st : State) : list string :=
  omap (fun m => match m with MoSend path _ => Some path | _ => None end) (monitors st)
    ++ buf (changes (lr st))
    ++ match reader st with RChanged filepath => [filepath] | _ => [] end.

Definition reported (st : State) : list string :=
  omap (fun l => match l with Changed filepath => Some filepath | _ => None end) (log st).

(** While the files keep their contents: every stored hash and every hash
    in a goroutine's hands is that of the contents, and none is sending. *)
Definition agrees (sha256 : list Byte.byte -> string)
    (read : string -> list Byte.byte * option string) (m : MonitorPc) : Prop :=
  match m with
  | MoRead _ | MoExited => True
  | MoCheck path c err => (c, err) = read path
  | MoLoad path bs | MoStore path bs => bs = sha256 (read path).1
  | MoSend _ _ => False
  end.

Record Quiet (sha256 : list Byte.byte -> string)
    (read : string -> list Byte.byte * option string) (st : State) : Prop := {
  quiet_hashes :
    forall path h, filehashes (lr st) !! path = Some h -> h = sha256 (read path).1;
  quiet_monitors : Forall (agrees sha256 read) (monitors st);
  quiet_changes : buf (changes (lr st)) = [];
  quiet_reader : reader st = RRecv;
  quiet_log : reported st = [] /\ Rerunning ∉ log st
}.

(** The paths that have a "Changed" line or are on their way to one. *)
Definition announced (st : State) (filepath : string) : Prop :=
  (exists bs, MoSend filepath bs ∈ monitors st)
  \/ filepath ∈ buf (changes (lr st))
  \/ reader st = RChanged filepath
  \/ Changed filepath ∈ log st.

(** The test of [MonitorFileChanges]: the path has a stored hash, and it
    is not [bs]. *)
Definition differs (m : gmap string string) (path bs : string) : bool :=
  match m !! path with
  | Some hashvalue => negb (bool_decide (hashvalue = bs))
  | None => false
  end.

(** *** A run used as an example: one file, seen twice, its contents
    changing in between *)

(** In place of SHA-256 in the examples: the bytes themselves. *)
Definition toy_hash (c : list Byte.byte) : string := String.string_of_list_byte c.

Definition one_file (c : list Byte.byte) : FileSystem :=
  MkFileSystem (fun _ => (c, None)) (fun _ => [Entry "." true; Entry "main.go" false]).

(** A walk that starts the goroutine, and the goroutine to its end when
    it has nothing to send. *)
Definition walk_once : list Thread := repeat TMain 4.
Definition monitor_silent (i : nat) : list Thread := repeat (TMonitor i) 4.

Definition monitor_reporting (i : nat) : list Thread := repeat (TMonitor i) 5.

(** The file hashed once, and a second goroutine started for it. *)
Definition second_look : list Thread := walk_once ++ monitor_silent 0 ++ walk_once.

Definition seen_twice : list Thread := second_look ++ monitor_silent 1.

Definition old_contents : list Byte.byte := [Byte.x61].
Definition new_contents : list Byte.byte := [Byte.x62].

End LiveReloader.

(** * Proofs *)

Module ListFacts.

Lemma lookup_split {A} (l : list A) (i : nat) (x : A) :
  l !! i = Some x ->
  exists l1 l2, l = l1 ++ x :: l2 /\ forall y, <[i := y]> l = l1 ++ y :: l2.
Proof.
  intros Hi. exists (take i l), (drop (S i) l). split.
  - symmetry. by apply take_drop_middle.
  - intros y. apply insert_take_drop. by eapply lookup_lt_Some.
Qed.

End ListFacts.

(** ** The port scanner *)

Module PortScannerProofs.

Import PortScanner ListFacts.

(** *** ScanPort *)

(** C5: [ScanPort] reports the port as open exactly when the dial
    succeeds; a successful dial is followed by the close of its connection
    and by nothing else, a failed one leaves [Open] at false and touches
    the network no further; the service is the table's entry for the port,
    the empty string where the table has none.  The result carries no
    error. *)
Theorem ScanPort_result (net : Network) (ps : PortScanner) (port : Z) :
  let dialled := net "tcp"%string (address ps port) (timeout ps) in
  let r := (ScanPort net ps port).1 in
  let trace := (ScanPort net ps port).2 in
  Port r = port
  /\ (Open r = true <-> exists conn, dialled = DialOk conn)
  /\ (forall conn, dialled = DialOk conn ->
        trace = [EvDial "tcp" (address ps port) (timeout ps); EvClose conn])
  /\ (forall err, dialled = DialErr err ->
        Open r = false /\ trace = [EvDial "tcp" (address ps port) (timeout ps)])
  /\ Service r = default ""%string (commonPorts !! port)
  /\ (commonPorts !! port = None -> Service r = ""%string).
Proof.
  intros dialled r trace. subst dialled r trace. unfold ScanPort, service_of.
  destruct (net "tcp"%string (address ps port) (timeout ps)) as [conn|err] eqn:E;
    cbn [fst snd Port Open Service].
  - split_and!; try done.
    + split; [by exists conn|done].
    + by intros ? [= ->].
    + by intros ->.
  - split_and!; try done.
    + split; [done|by intros [? ?]].
    + by intros ->.
Qed.

Example ScanPort_ssh_closed :
  ScanPort nothing_listens main_scanner 22
  = (MkScanResult 22 false "SSH", [EvDial "tcp" "localhost:22" 500000000]).
Proof. vm_compute. reflexivity. Qed.

Example ScanPort_3000_open :
  ScanPort (fun _ a _ => DialOk (MkConn a)) main_scanner 3000
  = (MkScanResult 3000 true "",
     [EvDial "tcp" "localhost:3000" 500000000; EvClose (MkConn "localhost:3000")]).
Proof. vm_compute. reflexivity. Qed.

Lemma ScanPort_Port net ps port : Port (ScanPort net ps port).1 = port.
Proof. unfold ScanPort. by destruct (net _ _ _). Qed.

(** *** sort.Slice *)

Lemma insert_by_perm x l : insert_by x l ≡ₚ x :: l.
Proof.
  induction l as [|y l IH]; simpl; [done|].
  destruct (less x y); [done|]. rewrite IH. apply perm_swap.
Qed.

Lemma sort_Slice_perm l : sort_Slice l ≡ₚ l.
Proof.
  induction l as [|x l IH]; simpl; [done|].
  rewrite insert_by_perm. by rewrite IH.
Qed.

Lemma insert_by_sorted x l :
  StronglySorted Z.le (map Port l) -> StronglySorted Z.le (map Port (insert_by x l)).
Proof.
  induction l as [|y l IH]; simpl; intros Hs.
  - repeat constructor.
  - apply StronglySorted_inv in Hs as [Hs Hy]. unfold less.
    destruct (Z.ltb_spec (Port x) (Port y)); simpl.
    + constructor; [by constructor|]. constructor; [lia|].
      eapply Forall_impl; [exact Hy|]. simpl. intros; lia.
    + constructor; [by apply IH|].
      apply List.Forall_map. rewrite insert_by_perm. constructor; [lia|].
      by apply List.Forall_map.
Qed.

Lemma sort_Slice_sorted l : StronglySorted Z.le (map Port (sort_Slice l)).
Proof.
  induction l as [|x l IH]; simpl; [constructor|]. by apply insert_by_sorted.
Qed.

(** *** Counting over the pool *)

Lemma held_app ws1 ws2 : held (ws1 ++ ws2) = held ws1 ++ held ws2.
Proof. unfold held. by rewrite map_app, concat_app. Qed.

Lemma held_cons w ws : held (w :: ws) = worker_port w ++ held ws.
Proof. reflexivity. Qed.

Lemma live_count_nil : live_count [] = 0.
Proof. reflexivity. Qed.

Lemma live_count_app ws1 ws2 :
  live_count (ws1 ++ ws2) = live_count ws1 + live_count ws2.
Proof. unfold live_count. rewrite filter_app, length_app. lia. Qed.

Lemma live_count_cons w ws :
  live_count (w :: ws) = (if live w then 1 else 0) + live_count ws.
Proof.
  unfold live_count. rewrite filter_cons.
  destruct (live w) eqn:E; case_decide; try congruence; simpl length; lia.
Qed.

Lemma live_count_nonneg ws : 0 <= live_count ws.
Proof. unfold live_count. lia. Qed.



Lemma live_worker ws :
  0 < live_count ws -> exists i w, ws !! i = Some w /\ live w = true.
Proof.
  induction ws as [|w ws IH]; [rewrite live_count_nil; lia|].
  rewrite live_count_cons. destruct (live w) eqn:E.
  - intros _. by exists 0%nat, w.
  - intros H. destruct IH as (i & w' & ? & ?); [lia|]. by exists (S i), w'.
Qed.

Lemma held_length_lookup ws i w :
  ws !! i = Some w -> (length (worker_port w) <= length (held ws))%nat.
Proof.
  intros (l1 & l2 & -> & _)%lookup_split.
  rewrite held_app, held_cons, !length_app. lia.
Qed.

(** *** The invariant of ScanSpecificPorts is kept by every step *)

Ltac inv_fields :=
  match goal with
  | H : Inv _ _ _ |- _ =>
      destruct H as [Hcr Hcj Hcres Hperm Hwg Hpool Hstart Hsend Hexit Hclo Hsort]
  end.

Ltac unstate st :=
  destruct st as [[jbuf jcap jclosed] [rbuf rcap rclosed] wg main pool sender closer crashed];
  unfold in_flight, has_room, push, pop, close_chan in *; simpl in *.

Ltac list_simp :=
  rewrite ?map_app, ?held_app, ?held_cons, ?ScanPort_Port, ?length_app,
    ?live_count_app, ?live_count_cons, ?live_count_nil in *; simpl in *.

Ltac perm_tac :=
  match goal with
  | H : _ ≡ₚ ?ports |- _ ≡ₚ ?ports =>
      etransitivity; [|exact H]; rewrite ?sort_Slice_perm; list_simp; solve_Permutation
  end.

Ltac elem_tac :=
  rewrite ?elem_of_app, ?elem_of_cons, ?elem_of_nil in *; intuition congruence.

Ltac split_step H :=
  repeat match type of H with
         | context [match ?x with _ => _ end] => destruct x eqn:?
         | context [if ?x then _ else _] => destruct x eqn:?
         end; simplify_eq; simpl in *;
  rewrite ?Z.ltb_lt, ?Z.ltb_ge, ?Z.leb_le, ?Z.leb_gt, ?Z.eqb_eq, ?Z.eqb_neq in *.

Ltac cases_tac := repeat case_match; simplify_eq; simpl in *.

Ltac close_tac :=
  first [ done | lia | perm_tac | intuition (first [congruence | lia]) | elem_tac
        | apply sort_Slice_sorted ].

Ltac field_tac := first [ solve [close_tac] | cases_tac; close_tac ].

Lemma Inv_step_main ps ports st st' :
  Inv ps ports st -> step_main ps (SList ports) st = Some st' -> Inv ps ports st'.
Proof.
  intros HI Hs. inv_fields. unstate st. unfold step_main in Hs; simpl in Hs.
  split_step Hs.
  all: constructor; unfold in_flight; simpl; list_simp; field_tac.
Qed.

Lemma Inv_step_sender ps ports st st' :
  Inv ps ports st -> step_sender st = Some st' -> Inv ps ports st'.
Proof.
  intros HI Hs. inv_fields. unstate st. unfold step_sender, send_job in Hs; simpl in Hs.
  split_step Hs.
  all: constructor; unfold in_flight; simpl; list_simp; field_tac.
Qed.

Lemma Inv_step_closer ps ports st st' :
  Inv ps ports st -> step_closer st = Some st' -> Inv ps ports st'.
Proof.
  intros HI Hs. inv_fields. unstate st. unfold step_closer in Hs; simpl in Hs.
  pose proof (live_count_nonneg pool).
  split_step Hs.
  all: constructor; unfold in_flight; simpl; list_simp; field_tac.
Qed.

Lemma Inv_step_worker ps ports net i st st' :
  Inv ps ports st -> step_worker ps net i st = Some st' -> Inv ps ports st'.
Proof.
  intros HI Hs. inv_fields. unstate st. unfold step_worker in Hs; simpl in Hs.
  destruct (pool !! i) as [w|] eqn:Hi; [|done].
  apply lookup_split in Hi as (l1 & l2 & -> & Hins).
  pose proof (live_count_nonneg l1). pose proof (live_count_nonneg l2).
  split_step Hs; rewrite ?Hins in *; clear Hins; list_simp.
  all: constructor; unfold in_flight; simpl; list_simp; field_tac.
Qed.

Lemma Inv_step ps ports st st' :
  Inv ps ports st -> Step ps (SList ports) st st' -> Inv ps ports st'.
Proof.
  intros HI (net & t & Hs). unfold step in Hs.
  rewrite (inv_crashed _ _ _ HI) in Hs. destruct t.
  - by eapply Inv_step_main.
  - by eapply Inv_step_worker.
  - by eapply Inv_step_sender.
  - by eapply Inv_step_closer.
Qed.

Lemma Inv_start ps ports st0 :
  ScanSpecificPorts_start ports = Normal st0 -> Inv ps ports st0.
Proof.
  unfold ScanSpecificPorts_start, start, make_chan.
  destruct (Z.ltb_spec (Z.of_nat (length ports)) 0); [lia|].
  intros [= <-]. constructor; unfold in_flight; simpl; try done.
  - by rewrite app_nil_r.
  - elem_tac.
Qed.

(** *** Every step of ScanSpecificPorts uses up some of the measure *)

Lemma list_sum_app_nat l1 l2 : list_sum (l1 ++ l2) = (list_sum l1 + list_sum l2)%nat.
Proof. apply list_sum_app. Qed.

Ltac weigh :=
  unfold measure; simpl;
  rewrite ?map_app, ?list_sum_app_nat, ?length_app; simpl; lia.

Lemma measure_step ps ports net t st st' :
  Inv ps ports st -> step ps (SList ports) net t st = Some st' ->
  (measure ps (SList ports) st' < measure ps (SList ports) st)%nat.
Proof.
  intros HI Hs.
  assert (HI' : Inv ps ports st') by (eapply Inv_step; [done|by exists net, t]).
  apply inv_crashed in HI'. pose proof (inv_sender _ _ _ HI) as Hsend.
  pose proof (inv_started _ _ _ HI) as Hstart.
  unfold step in Hs. rewrite (inv_crashed _ _ _ HI) in Hs. clear HI.
  unstate st. destruct t.
  - unfold step_main in Hs; simpl in Hs.
    split_step Hs; first [weigh | destruct_and?; simplify_eq; weigh].
  - unfold step_worker in Hs; simpl in Hs.
    destruct (pool !! i) as [w|] eqn:Hi; [|done].
    apply lookup_split in Hi as (l1 & l2 & -> & Hins).
    split_step Hs; rewrite ?Hins in *; clear Hins; weigh.
  - unfold step_sender, send_job in Hs; simpl in Hs. split_step Hs; weigh.
  - unfold step_closer in Hs; simpl in Hs. split_step Hs; weigh.
Qed.

Lemma steps_bounded ps ports n st0 st :
  Inv ps ports st0 -> nsteps (Step ps (SList ports)) n st0 st ->
  Inv ps ports st
  /\ (n + measure ps (SList ports) st <= measure ps (SList ports) st0)%nat.
Proof.
  intros HI Hn. induction Hn as [|n x y z (net & t & Hs) Hn IH]; [split; [done|lia]|].
  pose proof (measure_step _ _ _ _ _ _ HI Hs).
  destruct IH as [? ?]; [eapply Inv_step; [done|by exists net, t]|]. split; [done|lia].
Qed.

(** *** ScanSpecificPorts cannot get stuck before it returns *)

Lemma enabled ps ports st :
  Inv ps ports st -> (forall rs, main st <> MReturned rs) ->
  exists net t, is_Some (step ps (SList ports) net t st).
Proof.
  intros HI Hnr. inv_fields. unstate st. subst crashed.
  exists nothing_listens. unfold step; simpl.
  assert (Hmain : forall x, is_Some (step_main ps (SList ports) x) ->
            exists t, is_Some (match t with
                               | TMain => step_main ps (SList ports) x
                               | TWorker i => step_worker ps nothing_listens i x
                               | TSender => step_sender x
                               | TCloser => step_closer x end))
    by (intros; by exists TMain).
  destruct main as [i|i| | |acc|acc|rs]; try (by exfalso; eapply Hnr).
  1-4, 6: by (apply Hmain; unfold step_main; simpl; repeat case_match).
  destruct rbuf as [|r rbuf]; [|by apply Hmain].
  destruct rclosed; [by apply Hmain|]. clear Hmain.
  destruct Hstart as [Hs Hc].
  destruct closer as [[]|]; try done.
  2: { exists TCloser. by unfold step_closer; simpl. }
  2: { by destruct Hclo. }
  destruct (decide (wg = 0)) as [->|Hwg0].
  { exists TCloser. by unfold step_closer; simpl. }
  pose proof (live_count_nonneg pool).
  destruct (live_worker pool) as (i & w & Hi & Hlive); [simpl in *; lia|].
  pose proof (held_length_lookup _ _ _ Hi) as Hlen.
  apply Permutation_length in Hperm. rewrite !length_app in Hperm.
  destruct w; try done.
  - (* the worker waits for a job: it gets one, or sees the close, or
       the sender has something left to do *)
    destruct jbuf as [|p jbuf].
    2: { exists (TWorker i). unfold step_worker; simpl. by rewrite Hi. }
    destruct jclosed.
    { exists (TWorker i). unfold step_worker; simpl. by rewrite Hi. }
    exists TSender. unfold step_sender, send_job, has_room; simpl.
    destruct sender as [[| [|p rest] |]|]; try done. simpl in *.
    destruct (Z.ltb_spec (Z.of_nat 0) jcap); [done|lia].
  - exists (TWorker i). unfold step_worker; simpl. by rewrite Hi.
  - exists (TWorker i). unfold step_worker, has_room; simpl. rewrite Hi. simpl in *.
    destruct (Z.ltb_spec (Z.of_nat 0) rcap); [done|lia].
  - exists (TWorker i). unfold step_worker; simpl. rewrite Hi.
    by destruct (wg - 1 <? 0).
Qed.

Lemma progress ps ports st :
  Inv ps ports st -> (forall rs, main st <> MReturned rs) ->
  exists st', Step ps (SList ports) st st'.
Proof.
  intros HI Hnr. destruct (enabled _ _ _ HI Hnr) as (net & t & st' & Hs).
  by exists st', net, t.
Qed.

(** *** What ScanSpecificPorts returns *)





(** One run of [ScanSpecificPorts] on two workers, to its return. *)
Example ScanSpecificPorts_run :
  exists st0,
    ScanSpecificPorts_start [5432; 80; 22; 443; 3000] = Normal st0
    /\ option_map main
         (exec two_workers (ScanSpecificPorts_sender [5432; 80; 22; 443; 3000])
            nothing_listens specific_run st0)
       = Some (MReturned
                 [ MkScanResult 22 false "SSH"; MkScanResult 80 false "HTTP";
                   MkScanResult 443 false "HTTPS"; MkScanResult 3000 false "";
                   MkScanResult 5432 false "PostgreSQL" ]).
Proof. eexists. split; [reflexivity|]. vm_compute. reflexivity. Qed.


(** *** ScanRange: nobody closes jobs *)

Ltac rinv_fields :=
  match goal with
  | H : RangeInv _ _ |- _ => destruct H as [Hcr Hj Hr Hsend Hnd Hne Hclo Hmain]
  end.

Ltac rfield_tac := first [ solve [close_tac] | cases_tac; close_tac ].

Lemma RangeInv_step ps startPort endPort st st' :
  1 <= workers ps -> RangeInv ps st ->
  Step ps (SRange startPort endPort) st st' -> RangeInv ps st'.
Proof.
  intros Hw HI (net & t & Hs). rinv_fields. unfold step in Hs. rewrite Hcr in Hs.
  unstate st. subst crashed. destruct t.
  - unfold step_main in Hs; simpl in Hs. split_step Hs.
    all: constructor; simpl; rfield_tac.
  - unfold step_worker in Hs; simpl in Hs.
    destruct (pool !! i) as [w|] eqn:Hi; [|done].
    apply lookup_split in Hi as (l1 & l2 & -> & Hins).
    split_step Hs; rewrite ?Hins in *; clear Hins.
    all: try (exfalso; elem_tac).
    all: constructor; simpl; rfield_tac.
  - unfold step_sender, send_job in Hs; simpl in Hs. split_step Hs.
    all: constructor; simpl; rfield_tac.
  - unfold step_closer in Hs; simpl in Hs. split_step Hs.
    all: constructor; simpl; rfield_tac.
Qed.

Lemma RangeInv_start ps startPort endPort st0 :
  ScanRange_start startPort endPort = Normal st0 -> RangeInv ps st0.
Proof.
  unfold ScanRange_start, start, make_chan.
  destruct (ScanRange_size startPort endPort <? 0); [intros [=]|].
  intros [= <-]. constructor; simpl; try done; try elem_tac.
Qed.

Lemma RangeInv_reachable ps startPort endPort st0 st :
  1 <= workers ps -> RangeInv ps st0 ->
  reachable ps (SRange startPort endPort) st0 st -> RangeInv ps st.
Proof. induction 3; eauto using RangeInv_step. Qed.

Lemma ScanRange_never_returns ps startPort endPort st0 st :
  1 <= workers ps ->
  ScanRange_start startPort endPort = Normal st0 ->
  reachable ps (ScanRange_sender startPort endPort) st0 st ->
  crashed st = None /\ closed (jobs st) = false /\ forall rs, main st <> MReturned rs.
Proof.
  intros Hw H0 Hreach. apply (RangeInv_start ps) in H0.
  pose proof (RangeInv_reachable _ _ _ _ _ Hw H0 Hreach) as HI. clear H0.
  rinv_fields. split; [done|]. split; [done|].
  intros rs Hrs. by rewrite Hrs in Hmain.
Qed.

(** C6: on a scanner with at least one worker [ScanRange(1, 1024)] does
    not return: in every state that any run reaches, [jobs] is still open
    and the caller has not returned (nor has the program panicked). *)
Theorem ScanRange_1_1024_never_returns (ps : PortScanner) :
  1 <= workers ps ->
  exists st0,
    ScanRange_start 1 1024 = Normal st0
    /\ forall st,
         reachable ps (ScanRange_sender 1 1024) st0 st ->
         crashed st = None /\ closed (jobs st) = false
         /\ forall rs, main st <> MReturned rs.
Proof.
  intros Hw. eexists. split; [reflexivity|]. intros st Hst.
  eapply (ScanRange_never_returns ps 1 1024); [exact Hw|reflexivity|exact Hst].
Qed.

(** The same on the scanner of [main], with its 100 workers. *)
Lemma ScanRange_1_1024_never_returns_witness :
  1 <= workers main_scanner
  /\ exists st0,
       ScanRange_start 1 1024 = Normal st0
       /\ forall st,
            reachable main_scanner (ScanRange_sender 1 1024) st0 st ->
            crashed st = None /\ closed (jobs st) = false
            /\ forall rs, main st <> MReturned rs.
Proof.
  split; [simpl; lia|]. apply (ScanRange_1_1024_never_returns main_scanner).
  simpl. lia.
Defined.

(** One run of [ScanRange(1, 4)] on two workers: all four results are
    collected, and then no goroutine can take a step. *)
Example ScanRange_run_deadlocks :
  exists st0 st,
    ScanRange_start 1 4 = Normal st0
    /\ exec two_workers (ScanRange_sender 1 4) nothing_listens range_run st0 = Some st
    /\ main st = MCollect [ MkScanResult 1 false ""; MkScanResult 2 false "";
                            MkScanResult 3 false ""; MkScanResult 4 false "" ]
    /\ forall net t, step two_workers (ScanRange_sender 1 4) net t st = None.
Proof.
  eexists. eexists. split; [reflexivity|]. split; [vm_compute; reflexivity|].
  split; [reflexivity|]. intros net [|[|[|i]]| |]; reflexivity.
Qed.

(** *** ScanRange: the size of the channels *)

Lemma ScanRange_size_negative startPort endPort :
  is_int64 startPort -> is_int64 endPort -> endPort + 1 < startPort ->
  (ScanRange_size startPort endPort < 0 <-> startPort - endPort <= 2 ^ 63 + 1).
Proof.
  unfold is_int64, MinInt64, MaxInt64, ScanRange_size, wrap64, wrap.
  intros Hs He Hlt.
  change (2 ^ (64 - 1)) with 9223372036854775808 in *.
  change (2 ^ 64) with 18446744073709551616 in *.
  change (2 ^ 63) with 9223372036854775808 in *.
  destruct (Z_le_gt_dec (startPort - endPort) 9223372036854775808) as [Hd|Hd].
  - rewrite (Z.mod_small (endPort - startPort + _)) by lia.
    rewrite Z.mod_small by lia. lia.
  - replace ((endPort - startPort + 9223372036854775808) mod 18446744073709551616)
      with (endPort - startPort + 9223372036854775808 + 18446744073709551616).
    2: { apply Z.mod_unique with (q := -1); lia. }
    destruct (Z.eq_dec (startPort - endPort) 9223372036854775809) as [Heq|Hne].
    + match goal with
      | |- ?x mod _ - _ < 0 <-> _ =>
          replace (x mod 18446744073709551616) with 0
            by (apply Z.mod_unique with (q := 1); lia)
      end. lia.
    + rewrite Z.mod_small by lia. lia.
Qed.

(** C10, as the code has it: for [int] arguments with
    [startPort > endPort + 1] the size [endPort - startPort + 1] of the
    two channels, computed in wrapping 64-bit arithmetic, is negative
    exactly when [startPort - endPort <= 2^63 + 1], and then [ScanRange]
    panics in its first [make]. *)
Theorem ScanRange_panics_negative_size (startPort endPort : Z) :
  is_int64 startPort -> is_int64 endPort -> endPort + 1 < startPort ->
  (ScanRange_size startPort endPort < 0 <-> startPort - endPort <= 2 ^ 63 + 1)
  /\ (startPort - endPort <= 2 ^ 63 + 1 ->
        ScanRange_start startPort endPort = Panic "makechan: size out of range").
Proof.
  intros Hs He Hlt.
  pose proof (ScanRange_size_negative _ _ Hs He Hlt) as Hsz.
  split; [done|]. intros Hsmall. apply Hsz in Hsmall.
  unfold ScanRange_start, start, make_chan.
  by destruct (Z.ltb_spec (ScanRange_size startPort endPort) 0); [|lia].
Qed.

(** [ScanRange(1024, 1)] panics. *)
Lemma ScanRange_panics_negative_size_witness :
  (ScanRange_size 1024 1 < 0 <-> 1024 - 1 <= 2 ^ 63 + 1)
  /\ (1024 - 1 <= 2 ^ 63 + 1 ->
        ScanRange_start 1024 1 = Panic "makechan: size out of range").
Proof.
  apply (ScanRange_panics_negative_size 1024 1);
    unfold is_int64, MinInt64, MaxInt64; lia.
Defined.

(** C10 as stated fails: [startPort = MaxInt64], [endPort = MinInt64]
    satisfy [startPort > endPort + 1], the size wraps to 2, the channels
    are made, and on the scanner of [main] no run from there panics. *)
Lemma ScanRange_extremes_no_panic :
  MaxInt64 > MinInt64 + 1
  /\ ScanRange_size MaxInt64 MinInt64 = 2
  /\ exists st0,
       ScanRange_start MaxInt64 MinInt64 = Normal st0
       /\ cap (jobs st0) = 2
       /\ forall st,
            reachable main_scanner (ScanRange_sender MaxInt64 MinInt64) st0 st ->
            crashed st = None.
Proof.
  split; [done|]. split; [reflexivity|]. eexists. split; [reflexivity|].
  split; [reflexivity|]. intros st Hst.
  eapply (ScanRange_never_returns main_scanner MaxInt64 MinInt64);
    [simpl; lia|reflexivity|exact Hst].
Qed.

End PortScannerProofs.

(** ** The task executor *)

Module TaskExecutorProofs.

Import TaskExecutor ListFacts.

Section Proofs.

Context {RType : Type}.
Implicit Types (st : State RType) (ws : list (WorkerPc RType)).

Lemma te_live_count_nil : live_count (RType := RType) [] = 0.
Proof. reflexivity. Qed.

Lemma te_live_count_app ws1 ws2 :
  live_count (ws1 ++ ws2) = live_count ws1 + live_count ws2.
Proof. unfold live_count. rewrite filter_app, length_app. lia. Qed.

Lemma te_live_count_cons w ws :
  live_count (w :: ws) = (if live w then 1 else 0) + live_count ws.
Proof.
  unfold live_count. rewrite filter_cons.
  destruct (live w) eqn:E; case_decide; try congruence; simpl length; lia.
Qed.

Lemma te_live_count_nonneg ws : 0 <= live_count ws.
Proof. unfold live_count. lia. Qed.

Lemma te_live_count_0_exited ws :
  live_count ws = 0 -> Forall (fun w => w = WExited) ws.
Proof.
  induction ws as [|w ws IH]; [constructor|].
  rewrite te_live_count_cons. pose proof (te_live_count_nonneg ws).
  destruct w; simpl; intros; try lia. constructor; [done|]. apply IH. lia.
Qed.

Ltac unstate st :=
  destruct st as [[workers mu jobcounter wg [jbuf jcap jclosed] results]
                    main todo pool crashed received written];
  unfold JobsDone, has_room, push, pop, close_chan in *; simpl in *.

Ltac split_step H :=
  repeat match type of H with
         | context [match ?x with _ => _ end] => destruct x eqn:?
         | context [if ?x then _ else _] => destruct x eqn:?
         end; simplify_eq; simpl in *;
  rewrite ?Z.ltb_lt, ?Z.ltb_ge, ?Z.leb_le, ?Z.leb_gt, ?Z.eqb_eq, ?Z.eqb_neq in *.

Ltac list_simp :=
  rewrite ?length_app, ?te_live_count_app, ?te_live_count_cons, ?te_live_count_nil in *;
  simpl in *.

Ltac elems := rewrite ?elem_of_app, ?elem_of_cons, ?elem_of_nil in *.

(** A received task stays accounted for when worker [w] of
    [l1 ++ w :: l2] moves on: it is still carried, or its result has
    just been written. *)
Ltac carried Hrec :=
  let t0 := fresh "t0" in
  let Ht0 := fresh "Ht0" in
  let pc := fresh "pc" in
  let Hpc := fresh "Hpc" in
  let Hc := fresh "Hc" in
  intros t0 Ht0;
  first
    [ destruct (Hrec t0 Ht0) as [?|(pc & Hpc & Hc)]
    | (apply elem_of_app in Ht0 as [Ht0|Ht0];
       [ destruct (Hrec t0 Ht0) as [?|(pc & Hpc & Hc)]
       | apply list_elem_of_singleton in Ht0 as ->;
         right; eexists; split;
         [ apply elem_of_app; right; left | left; reflexivity ] ]) ];
  [ left; elems; by auto | ];
  try (apply elem_of_app in Hpc as [Hpc|Hpc];
       [ right; exists pc; split; [apply elem_of_app; by left|done] | ];
       apply elem_of_cons in Hpc as [->|Hpc];
       [ | right; exists pc; split; [apply elem_of_app; right; by right|done] ];
       destruct Hc as [Hc|[Hc|Hc]]; simplify_eq;
       first [ left; elems; by auto
             | right; eexists; split;
               [ apply elem_of_app; right; left
               | unfold carries; by auto ] ]).

Lemma te_Inv_step st st' : Inv st -> Step st st' -> Inv st'.
Proof.
  intros [Hwg Hexit Hrec Hwr] (t & Hs). unfold step in Hs.
  destruct (crashed st) eqn:Hcr; [done|]. unstate st. destruct t.
  - unfold step_main in Hs; simpl in Hs. split_step Hs.
    all: constructor; simpl; list_simp; try done; try lia.
    all: try (elems; intuition congruence).
    all: intros t Ht; destruct (Hrec t Ht) as [?|(pc & ? & ?)]; [by left|right].
    all: exists pc; elems; auto.
  - unfold step_worker in Hs; simpl in Hs.
    destruct (pool !! i) as [w|] eqn:Hi; [|done].
    apply lookup_split in Hi as (l1 & l2 & -> & Hins).
    split_step Hs; rewrite ?Hins in *; clear Hins.
    all: constructor; simpl; list_simp; try done; try lia.
    all: try (elems; intuition congruence).
    all: try (carried Hrec).
    intros k v [Hkv|Hkv%list_elem_of_singleton]%elem_of_app.
    + apply lookup_insert_is_Some. destruct (decide (id task = k)); [by left|right].
      split; [done|]. by eapply Hwr.
    + simplify_eq. apply lookup_insert_is_Some. by left.
Qed.

Lemma te_Inv_init (w : Z) (calls : list (Call RType)) :
  Inv (InitializeTaskExecutor w calls).
Proof.
  constructor; simpl; try done.
  - elems. intuition.
  - intros t Ht. by apply elem_of_nil in Ht.
  - intros k v Ht. by apply elem_of_nil in Ht.
Qed.

Lemma te_Inv_reachable st0 st : Inv st0 -> reachable st0 st -> Inv st.
Proof. induction 2; eauto using te_Inv_step. Qed.

Lemma exec_reachable sched st0 st : exec sched st0 = Some st -> reachable st0 st.
Proof.
  revert st0. induction sched as [|t sched IH]; simpl; intros st0 H.
  - injection H as ->. constructor.
  - destruct (step t st0) as [st1|] eqn:E; [|done].
    eapply rtc_l; [by exists t|by apply IH].
Qed.

(** C9: when [BlockOn] returns (the step of the caller that ends its
    [wg.Wait()]), every worker has left its loop, which it does only on
    finding [jobs] closed, and every task that a worker ever took from
    [jobs] has been run and its result written to [results]. *)
Theorem BlockOn_barrier (w : Z) (calls rest : list (Call RType)) st st' :
  reachable (InitializeTaskExecutor w calls) st ->
  main st = MIdle -> todo st = BlockOn :: rest ->
  step TMain st = Some st' ->
  todo st' = rest
  /\ Forall (fun pc => pc = WExited) (pool st')
  /\ (pool st' <> [] -> closed (jobs (te st')) = true)
  /\ forall t, t ∈ received st' ->
       (id t, job t tt) ∈ written st' /\ is_Some (GetResults st' !! id t).
Proof.
  intros Hreach Hm Ht Hs.
  pose proof (te_Inv_reachable _ _ (te_Inv_init w calls) Hreach) as [Hwg Hexit Hrec Hwr].
  unfold step in Hs. destruct (crashed st) eqn:Hcr; [done|].
  unfold step_main in Hs. rewrite Hm, Ht in Hs.
  destruct (Z.eqb_spec (wg (te st)) 0) as [H0|]; [|done]. simplify_eq. simpl.
  rewrite Hm, H0 in Hwg. simpl in Hwg.
  assert (Hall : Forall (fun pc => pc = WExited) (pool st))
    by (apply te_live_count_0_exited; lia).
  split; [done|]. split; [done|]. split.
  - intros Hne. apply Hexit. right. destruct (pool st) as [|pc ws]; [done|].
    apply Forall_cons in Hall as [-> _]. by left.
  - intros t Hin. assert (Hw : (id t, job t tt) ∈ written st).
    { destruct (Hrec t Hin) as [?|(pc & Hpc & Hc)]; [done|].
      rewrite Forall_forall in Hall. rewrite (Hall pc Hpc) in Hc.
      by destruct Hc as [?|[?|?]]. }
    split; [done|]. by eapply Hwr.
Qed.

(** *** InitializeTaskExecutor *)






(** *** Close *)

(** C3, as the code has it: [Close] has no guard of its own.  Called
    when the queue is already closed and [jobcounter] is zero, it goes on
    to [close(jobs)] on the closed channel, and the program panics with
    the runtime's [close of closed channel]. *)
Theorem Close_again_panics (rest : list (Call RType)) st :
  crashed st = None -> main st = MIdle -> todo st = Close :: rest ->
  closed (jobs (te st)) = true -> jobcounter (te st) = 0 ->
  exists st1,
    step TMain st = Some st1 /\ main st1 = MCloseChan
    /\ step TMain st1 = Some (crash RType "close of closed channel" st1).
Proof.
  intros Hcr Hm Ht Hcl Hj. eexists. split; [|split].
  - unfold step, step_main, JobsDone. rewrite Hcr, Hm, Ht, Hj. reflexivity.
  - reflexivity.
  - unfold step, step_main. simpl. by rewrite Hcr, Hcl.
Qed.

End Proofs.

(** *** The runs of the examples *)

(** The barrier at the end of a run of two tasks on one worker. *)
Lemma BlockOn_barrier_witness :
  exists st st',
    exec until_BlockOn (InitializeTaskExecutor 1 two_tasks) = Some st
    /\ step TMain st = Some st'
    /\ todo st' = []
    /\ Forall (fun pc => pc = WExited) (pool st')
    /\ (pool st' <> [] -> closed (jobs (te st')) = true)
    /\ forall t, t ∈ received st' ->
         (id t, job t tt) ∈ written st' /\ is_Some (GetResults st' !! id t).
Proof.
  destruct (exec until_BlockOn (InitializeTaskExecutor 1 two_tasks)) as [st|] eqn:E;
    [|by vm_compute in E].
  destruct (step TMain st) as [st'|] eqn:E';
    [|by (vm_compute in E; injection E as <-; vm_compute in E')].
  exists st, st'. split; [done|]. split; [done|].
  apply (BlockOn_barrier 1 two_tasks [] st st').
  - by apply (exec_reachable until_BlockOn).
  - vm_compute in E. by injection E as <-.
  - vm_compute in E. by injection E as <-.
  - done.
Defined.

(** The second [Close] of [Close(); Close()] on one worker. *)
Lemma Close_again_panics_witness :
  exists st st1,
    exec first_Close (InitializeTaskExecutor 1 close_twice) = Some st
    /\ closed (jobs (te st)) = true
    /\ step TMain st = Some st1 /\ main st1 = MCloseChan
    /\ step TMain st1 = Some (crash Z "close of closed channel" st1).
Proof.
  destruct (exec first_Close (InitializeTaskExecutor 1 close_twice)) as [st|] eqn:E;
    [|by vm_compute in E].
  assert (Hst : crashed st = None /\ main st = MIdle /\ todo st = [Close]
                /\ closed (jobs (te st)) = true /\ jobcounter (te st) = 0)
    by (vm_compute in E; by injection E as <-).
  destruct Hst as (H1 & H2 & H3 & H4 & H5).
  destruct (Close_again_panics [] st H1 H2 H3 H4 H5) as (st1 & Ha & Hb & Hc).
  by exists st, st1.
Defined.

(** C3 as stated fails: one worker, no task, [Close(); Close()].  The
    second [Close] runs [close(jobs)] on the channel that the first has
    closed, and the program ends in the panic. *)
Lemma Close_twice_double_close :
  exists st,
    exec (first_Close ++ [TMain; TMain]) (InitializeTaskExecutor 1 close_twice) = Some st
    /\ main st = MCloseChan
    /\ closed (jobs (te st)) = true
    /\ crashed st = Some "close of closed channel"%string.
Proof. eexists. split; [vm_compute; reflexivity|]. by split_and!. Qed.


(** C1, on the code: two tasks, one worker, the first task finished
    before the second is added.  Both get the identifier 0, and after
    [BlockOn] has returned [GetResults] holds one entry, not two, and none
    under 1. *)
Theorem two_tasks_one_result :
  exists st,
    exec one_by_one (InitializeTaskExecutor 1 two_tasks) = Some st
    /\ main st = MIdle /\ todo st = [] /\ crashed st = None
    /\ map id (received st) = [0; 0]
    /\ map_to_list (GetResults st) = [(0, 222)]
    /\ GetResults st !! 1 = None.
Proof. eexists. split; [vm_compute; reflexivity|]. by split_and!. Qed.

(** C2, on the code: one worker, one [AddTask].  The task is sent before
    the counter is incremented, so the worker can finish it first, and
    then [jobcounter] is -1. *)
Theorem jobcounter_negative :
  exists st,
    exec done_before_add (InitializeTaskExecutor 1 two_tasks) = Some st
    /\ main st = MAdd /\ crashed st = None
    /\ jobcounter (te st) = -1.
Proof. eexists. split; [vm_compute; reflexivity|]. by split_and!. Qed.

(** The decrement is a [Load] followed by a [Swap]: when two workers read
    the counter before either writes it, one decrement is lost.  Both
    tasks are done and stored, [jobcounter] stays at 1, and [Close] spins
    on [JobsDone] without ever closing the queue. *)
Example decrement_lost :
  exists st st1,
    exec both_load_first (InitializeTaskExecutor 2 two_tasks) = Some st
    /\ GetResults st !! 0 = Some 111 /\ GetResults st !! 1 = Some 222
    /\ pool st = [WRecv; WRecv] /\ buf (jobs (te st)) = []
    /\ jobcounter (te st) = 1
    /\ step TMain st = Some st1 /\ main st1 = MCloseCheck
    /\ step TMain st1 = Some st1.
Proof.
  eexists. eexists. split; [vm_compute; reflexivity|]. by split_and!.
Qed.

(** C8, on the code: in the same run of two tasks on one worker, the
    entry under 0 first holds the first task's 111 and is later overwritten with the
    second task's 222. *)
Theorem result_overwritten :
  exists st1 st2,
    exec first_stored (InitializeTaskExecutor 1 two_tasks) = Some st1
    /\ GetResults st1 !! 0 = Some 111
    /\ exec then_second st1 = Some st2
    /\ GetResults st2 !! 0 = Some 222
    /\ written st2 = [(0, 111); (0, 222)].
Proof.
  eexists. eexists. split; [vm_compute; reflexivity|].
  split; [reflexivity|]. split; [vm_compute; reflexivity|]. by split.
Qed.

End TaskExecutorProofs.

(** ** More on the port scanner *)

Module PortScannerExtra.

Import PortScanner PortScannerMore ListFacts PortScannerProofs.

Lemma ScanSpecificPorts_start_normal ports :
  ScanSpecificPorts_start ports
  = Normal (MkState (MkChan [] (Z.of_nat (length ports)) false)
              (MkChan [] (Z.of_nat (length ports)) false)
              0 (MLoop 0) [] None None None).
Proof.
  unfold ScanSpecificPorts_start, start, make_chan.
  by destruct (Z.ltb_spec (Z.of_nat (length ports)) 0); [lia|].
Qed.



(** *** A scanner without workers *)

Lemma IdleInv_step ps body st st' :
  workers ps <= 0 -> IdleInv st -> Step ps body st st' -> IdleInv st'.
Proof.
  intros Hw [Hp Hr Hc Hl] (net & t & Hs). unfold step in Hs.
  destruct (crashed st); [done|].
  destruct st as [[jbuf jcap jclosed] [rbuf rcap rclosed] wg main pool sender closer crashed].
  simpl in *. subst pool rbuf. destruct t.
  - unfold step_main in Hs; simpl in Hs.
    destruct main; simpl in *; try done.
    + destruct (Z.ltb_spec i (workers ps)); [lia|]. by simplify_eq.
    + by simplify_eq.
    + by simplify_eq.
    + subst. destruct rclosed; by simplify_eq.
    + by simplify_eq.
  - unfold step_worker in Hs; simpl in Hs. done.
  - unfold step_sender, send_job in Hs; simpl in Hs.
    repeat case_match; by simplify_eq.
  - unfold step_closer in Hs; simpl in Hs.
    repeat case_match; by simplify_eq.
Qed.

Lemma IdleInv_nsteps ps body n st0 st :
  workers ps <= 0 -> IdleInv st0 -> nsteps (Step ps body) n st0 st -> IdleInv st.
Proof. induction 3; eauto using IdleInv_step. Qed.

(** X2: on a scanner whose [workers] is zero or negative
    [ScanSpecificPorts(ports)] still returns, within
    [5 * len(ports) + 8] steps and without panic, but what it returns is
    the empty slice, for every list of ports: the wait group is at zero
    from the start, so [results] is closed before any port is scanned. *)
Theorem ScanSpecificPorts_without_workers (ps : PortScanner) (ports : list Z) :
  workers ps <= 0 ->
  exists st0,
    ScanSpecificPorts_start ports = Normal st0
    /\ forall n st,
         nsteps (Step ps (ScanSpecificPorts_sender ports)) n st0 st ->
         (n <= 5 * length ports + 8)%nat
         /\ crashed st = None
         /\ pool st = []
         /\ (forall rs, main st = MReturned rs -> rs = [])
         /\ ((forall rs, main st <> MReturned rs) ->
               exists st', Step ps (ScanSpecificPorts_sender ports) st st').
Proof.
  intros Hw. eexists. split; [apply ScanSpecificPorts_start_normal|].
  intros n st Hn.
  match type of Hn with nsteps _ _ ?s _ => set (st0 := s) in * end.
  assert (H0 : Inv ps ports st0)
    by (apply Inv_start, ScanSpecificPorts_start_normal).
  assert (Hidle : IdleInv st).
  { eapply IdleInv_nsteps; [exact Hw| |exact Hn]. by constructor. }
  destruct (steps_bounded _ _ _ _ _ H0 Hn) as [HI Hm].
  split; [|split; [by destruct HI|split; [by destruct Hidle|split]]].
  - unfold measure in Hm at 2. simpl in Hm.
    replace (Z.to_nat (workers ps - 0)) with 0%nat in Hm by lia. lia.
  - intros rs Hrs. destruct Hidle as [_ _ Hc _]. by rewrite Hrs in Hc.
  - intros Hnr. by apply progress.
Qed.

Lemma ScanSpecificPorts_without_workers_witness :
  workers no_workers <= 0
  /\ exists st0,
       ScanSpecificPorts_start specificPorts = Normal st0
       /\ forall n st,
            nsteps (Step no_workers (ScanSpecificPorts_sender specificPorts)) n st0 st ->
            (n <= 5 * length specificPorts + 8)%nat
            /\ crashed st = None
            /\ pool st = []
            /\ (forall rs, main st = MReturned rs -> rs = [])
            /\ ((forall rs, main st <> MReturned rs) ->
                  exists st', Step no_workers (ScanSpecificPorts_sender specificPorts) st st').
Proof.
  split; [simpl; lia|].
  apply (ScanSpecificPorts_without_workers no_workers specificPorts). simpl. lia.
Defined.

(** *** The service names of the results *)

Lemma Forall_labelled_perm (l l' : list ScanResult) :
  l ≡ₚ l' -> Forall labelled l -> Forall labelled l'.
Proof. intros Hp. by rewrite Hp. Qed.

Lemma ScanPort_labelled net ps port : labelled (ScanPort net ps port).1.
Proof. unfold ScanPort, labelled. by destruct (net _ _ _). Qed.

Lemma produced_step ps body st st' :
  Step ps body st st' -> Forall labelled (produced st) -> Forall labelled (produced st').
Proof.
  intros (net & t & Hs) Hall. unfold step in Hs. destruct (crashed st); [done|].
  destruct st as [[jbuf jcap jclosed] [rbuf rcap rclosed] wg main pool sender closer crashed].
  unfold produced, has_room, push, pop, close_chan in *; simpl in *.
  pose proof (ScanPort_labelled net ps) as Hnew.
  pose proof (fun l => Forall_labelled_perm _ _ (symmetry (sort_Slice_perm l))) as Hsort.
  destruct t.
  - unfold step_main in Hs; simpl in Hs. split_step Hs.
    all: rewrite ?map_app, ?concat_app in *; simpl in *.
    all: rewrite ?Forall_app, ?Forall_cons, ?Forall_app, ?Forall_cons in *.
    all: intuition.
  - unfold step_worker in Hs; simpl in Hs.
    destruct (pool !! i) as [w|] eqn:Hi; [|done].
    apply lookup_split in Hi as (l1 & l2 & -> & Hins).
    split_step Hs; rewrite ?Hins in *; clear Hins.
    all: rewrite ?map_app, ?concat_app in *; simpl in *.
    all: rewrite ?Forall_app, ?Forall_cons, ?Forall_app, ?Forall_cons in *.
    all: intuition.
  - unfold step_sender, send_job in Hs; simpl in Hs. by split_step Hs.
  - unfold step_closer in Hs; simpl in Hs. by split_step Hs.
Qed.

(** X3: in every scan ([ScanRange], [scanCommonPorts],
    [ScanSpecificPorts]), on every scanner and in every run, each result
    that a worker has produced, and so each result of the returned slice,
    carries as [Service] the entry of [commonPorts] for its own [Port],
    the empty string where the table has none. *)
Theorem results_carry_table_service (ps : PortScanner) (body : SenderPc)
    (size : Z) (st0 st : State) :
  start size = Normal st0 ->
  reachable ps body st0 st ->
  Forall (fun r => Service r = default ""%string (commonPorts !! Port r)) (produced st)
  /\ forall rs, main st = MReturned rs ->
       Forall (fun r => Service r = default ""%string (commonPorts !! Port r)) rs.
Proof.
  intros H0 Hreach.
  assert (Hall : Forall labelled (produced st)).
  { assert (Hstart : Forall labelled (produced st0)).
    { unfold start, make_chan in H0. destruct (size <? 0); [done|].
      injection H0 as <-. constructor. }
    clear H0. induction Hreach; eauto using produced_step. }
  split; [done|]. intros rs Hrs. unfold produced in Hall. rewrite Hrs in Hall.
  rewrite !Forall_app in Hall. by destruct Hall as (_ & _ & ?).
Qed.

Lemma scan_exec_reachable ps body net sched st0 st :
  exec ps body net sched st0 = Some st -> reachable ps body st0 st.
Proof.
  revert st0. induction sched as [|t sched IH]; simpl; intros st0 H.
  - injection H as ->. constructor.
  - destruct (step ps body net t st0) as [st1|] eqn:E; [|done].
    eapply rtc_l; [by exists net, t|by apply IH].
Qed.

(** The returned slice of one run of [ScanSpecificPorts] on two workers. *)
Lemma results_carry_table_service_witness :
  exists st0 st rs,
    start 5 = Normal st0
    /\ exec two_workers (SList specificPorts) nothing_listens specific_run st0 = Some st
    /\ main st = MReturned rs /\ length rs = 5%nat
    /\ Forall (fun r => Service r = default ""%string (commonPorts !! Port r)) rs.
Proof.
  destruct (start 5) as [st0|] eqn:E0; [|by vm_compute in E0].
  destruct (exec two_workers (SList specificPorts) nothing_listens specific_run st0)
    as [st|] eqn:E; [|by (vm_compute in E0; injection E0 as <-; vm_compute in E)].
  assert (Hm : exists rs, main st = MReturned rs /\ length rs = 5%nat).
  { vm_compute in E0. injection E0 as <-. vm_compute in E. injection E as <-.
    eexists. split; reflexivity. }
  destruct Hm as (rs & Hm & Hlen). exists st0, st, rs.
  split; [done|]. split; [done|]. split; [done|]. split; [done|].
  eapply (results_carry_table_service two_workers (SList specificPorts) 5 st0 st);
    [done|by eapply scan_exec_reachable|done].
Defined.

(** *** scanCommonPorts *)









(** *** PrintResults *)

Lemma PrintResults_loop_eq results showClosed acc :
  PrintResults_loop results showClosed acc
  = MkReport
      (openCount acc + Z.of_nat (length (filter (fun r => Open r = true) results)))
      (closedCount acc + Z.of_nat (length (filter (fun r => Open r = false) results)))
      (lines acc ++ flat_map (report_line showClosed) results).
Proof.
  revert acc. induction results as [|r results IH]; intros acc; simpl.
  - rewrite !Z.add_0_r, app_nil_r. by destruct acc.
  - rewrite IH, !filter_cons. unfold report_line.
    destruct (Open r); simpl; repeat case_decide; try done; simpl.
    + rewrite <- app_assoc. f_equal; lia.
    + destruct showClosed; rewrite <- ?app_assoc; f_equal; lia.
Qed.

Lemma filter_open_closed (results : list ScanResult) :
  (length (filter (fun r => Open r = true) results)
   + length (filter (fun r => Open r = false) results))%nat = length results.
Proof.
  induction results as [|r results IH]; [done|].
  rewrite !filter_cons. destruct (Open r); repeat case_decide; try done; simpl; lia.
Qed.

(** X5: what [PrintResults] writes: the four lines of the heading; for
    each result in the order given one line if the port is open, one line
    if it is closed and [showClosed] is set, none otherwise; the four
    lines of the summary.  The summary's counters are the number of open
    and of closed results, and they add up to the total it prints. *)
Theorem PrintResults_report (results : list ScanResult) (showClosed : bool) :
  let report := PrintResults results showClosed in
  openCount report = Z.of_nat (length (filter (fun r => Open r = true) results))
  /\ closedCount report = Z.of_nat (length (filter (fun r => Open r = false) results))
  /\ openCount report + closedCount report = Z.of_nat (length results)
  /\ lines report
     = [""%string; rule; "PORT SCAN RESULTS"%string; rule]
         ++ flat_map (report_line showClosed) results
         ++ [ rule;
              ("Total Ports Scanned: " +:+ pretty (Z.of_nat (length results)))%string;
              ("Open: " +:+ pretty (openCount report) +:+ " | Closed: "
                 +:+ pretty (closedCount report))%string;
              rule ].
Proof.
  unfold PrintResults. rewrite PrintResults_loop_eq.
  cbn [openCount closedCount lines]. rewrite !Z.add_0_l.
  split; [done|]. split; [done|]. split.
  - rewrite <- (filter_open_closed results). lia.
  - by rewrite <- app_assoc.
Qed.

Lemma commonPorts_names port name :
  commonPorts !! port = Some name -> name <> ""%string.
Proof.
  intros H%elem_of_map_to_list.
  assert (Hall : Forall (fun kv : Z * string => kv.2 <> ""%string) (map_to_list commonPorts))
    by (vm_compute; repeat constructor; discriminate).
  rewrite Forall_forall in Hall. exact (Hall _ H).
Qed.

(** X6: [ScanPort] followed by [PrintResults]: a port whose dial succeeds
    is reported as open with the service name of the table, and as
    [Unknown] when the table has no entry for it; a port whose dial fails
    is reported as closed if [showClosed] is set and not at all otherwise. *)
Theorem report_of_scanned_port (net : Network) (ps : PortScanner) (port : Z)
    (showClosed : bool) :
  report_line showClosed (ScanPort net ps port).1
  = match net "tcp"%string (address ps port) (timeout ps) with
    | DialOk _ =>
        [ ("Port " +:+ pretty port +:+ " is OPEN - "
             +:+ match commonPorts !! port with
                 | Some name => name
                 | None => "Unknown"
                 end)%string ]
    | DialErr _ =>
        if showClosed then [("Port " +:+ pretty port +:+ " is CLOSED")%string] else []
    end.
Proof.
  unfold ScanPort, report_line, open_line, closed_line, service_of.
  destruct (net "tcp"%string (address ps port) (timeout ps)) as [conn|err];
    cbn [fst Open Port Service]; [|done].
  destruct (commonPorts !! port) as [name|] eqn:E; cbn [default].
  - apply commonPorts_names in E. by case_decide.
  - by case_decide.
Qed.

Example PrintResults_two_ports :
  lines (PrintResults [MkScanResult 22 false "SSH"; MkScanResult 3000 true ""] false)
  = [ ""; rule; "PORT SCAN RESULTS"; rule;
      "Port 3000 is OPEN - Unknown";
      rule; "Total Ports Scanned: 2"; "Open: 1 | Closed: 1"; rule ]%string.
Proof. vm_compute. reflexivity. Qed.

(** *** ScanRange scans the whole range and then blocks *)
















End PortScannerExtra.

(** ** More on the task executor *)

Module TaskExecutorExtra.

Import TaskExecutor TaskExecutorMore ListFacts TaskExecutorProofs.

Section Proofs.

Context {RType : Type}.
Implicit Types (st : State RType) (ws : list (WorkerPc RType)).

Lemma critical_count_nil : critical_count (RType := RType) [] = 0.
Proof. reflexivity. Qed.

Lemma critical_count_app ws1 ws2 :
  critical_count (ws1 ++ ws2) = critical_count ws1 + critical_count ws2.
Proof. unfold critical_count. rewrite filter_app, length_app. lia. Qed.

Lemma critical_count_cons w ws :
  critical_count (w :: ws) = (if critical w then 1 else 0) + critical_count ws.
Proof.
  unfold critical_count. rewrite filter_cons.
  destruct (critical w) eqn:E; case_decide; try congruence; simpl length; lia.
Qed.

Lemma critical_count_nonneg ws : 0 <= critical_count ws.
Proof. unfold critical_count. lia. Qed.

Ltac unstate st :=
  destruct st as [[workers mu jobcounter wg [jbuf jcap jclosed] results]
                    main todo pool crashed received written];
  unfold JobsDone, has_room, push, pop, close_chan in *; simpl in *.

Ltac split_step H :=
  repeat match type of H with
         | context [match ?x with _ => _ end] => destruct x eqn:?
         | context [if ?x then _ else _] => destruct x eqn:?
         end; simplify_eq; simpl in *;
  rewrite ?Z.ltb_lt, ?Z.ltb_ge, ?Z.leb_le, ?Z.leb_gt, ?Z.eqb_eq, ?Z.eqb_neq in *.

Ltac count_simp :=
  rewrite ?length_app, ?te_live_count_app, ?te_live_count_cons, ?te_live_count_nil,
    ?critical_count_app, ?critical_count_cons, ?critical_count_nil in *;
  simpl in *.

Ltac elems := rewrite ?elem_of_app, ?elem_of_cons, ?elem_of_nil in *.

Lemma Safe_step st st' : Safe st -> Step st st' -> Safe st'.
Proof.
  intros [HI Hmu Hinit Hcrash Hcap Hroom] Hstep.
  pose proof (te_Inv_step _ _ HI Hstep) as HI'.
  destruct HI as [Hwg Hexit _ _]. destruct Hstep as (t & Hs). unfold step in Hs.
  destruct (crashed st) eqn:Hcr; [done|]. unstate st. subst crashed. destruct t.
  - unfold step_main, JobsDone, has_room, push, pop, close_chan in Hs; simpl in Hs.
    split_step Hs.
    all: constructor; simpl; count_simp; try done; try lia.
    all: try (intros msg [= <-]; unfold caller_panic; by auto).
    all: try (intros _; apply Hinit; done).
  - unfold step_worker, JobsDone, has_room, push, pop, close_chan in Hs; simpl in Hs.
    destruct (pool !! i) as [w|] eqn:Hi; [|done].
    apply lookup_split in Hi as (l1 & l2 & -> & Hins).
    pose proof (critical_count_nonneg l1). pose proof (critical_count_nonneg l2).
    pose proof (te_live_count_nonneg l1). pose proof (te_live_count_nonneg l2).
    split_step Hs; rewrite ?Hins in *; clear Hins.
    all: count_simp.
    all: try (constructor; simpl; count_simp; try done; try lia;
              try (destruct jbuf; simpl in *; lia)).
    (* Unlock of an unlocked mutex cannot happen: this worker holds it
       (solved by arithmetic above).  Done below zero cannot happen
       either: the wait group counts this worker. *)
    exfalso. destruct main; simpl in *; try lia.
    all: assert (jclosed = true) by (apply Hexit; elems; auto).
    all: rewrite Hinit in *; done.
Qed.

Lemma Safe_init (w : Z) (calls : list (Call RType)) :
  Safe (InitializeTaskExecutor w calls).
Proof. constructor; simpl; try done. apply te_Inv_init. Qed.

Lemma Safe_reachable st0 st : Safe st0 -> reachable st0 st -> Safe st.
Proof. induction 2; eauto using Safe_step. Qed.

Lemma Sound_step st st' : Sound st -> Step st st' -> Sound st'.
Proof.
  intros [Hhand Hres] (t & Hs). unfold step in Hs.
  destruct (crashed st) eqn:Hcr; [done|]. unstate st. subst crashed. destruct t.
  - unfold step_main, JobsDone, has_room, push, pop, close_chan in Hs; simpl in Hs.
    split_step Hs; (constructor; simpl; [|exact Hres]); try exact Hhand.
    intros pc t ov Hpc Hin. elems. destruct Hpc as [Hpc|[->|[]]]; [by eapply Hhand|done].
  - unfold step_worker, JobsDone, has_room, push, pop, close_chan in Hs; simpl in Hs.
    destruct (pool !! i) as [w|] eqn:Hi; [|done].
    apply lookup_split in Hi as (l1 & l2 & -> & Hins).
    assert (Hold : forall pc t ov, pc ∈ l1 ++ l2 -> in_hand pc = Some (t, ov) ->
                     t ∈ received /\ forall v, ov = Some v -> v = job t tt)
      by (intros pc t ov Hpc; apply Hhand; elems; tauto).
    assert (Hme : forall t ov, in_hand w = Some (t, ov) ->
                     t ∈ received /\ forall v, ov = Some v -> v = job t tt)
      by (intros t ov; apply Hhand; elems; auto).
    split_step Hs; rewrite ?Hins in *; clear Hins.
    all: constructor; simpl; try done.
    all: try (intros pc t' ov Hpc Hin; elems;
              destruct Hpc as [Hpc|[->|Hpc]];
              [ try (destruct (Hold pc t' ov) as [? ?]; [elems; by auto|done|]);
                try (split; [elems; by auto|done]); by (apply (Hold pc t' ov); elems; auto)
              | simpl in Hin; simplify_eq
              | try (destruct (Hold pc t' ov) as [? ?]; [elems; by auto|done|]);
                try (split; [elems; by auto|done]); by (apply (Hold pc t' ov); elems; auto)]).
    all: try (intros k v Hk; destruct (Hres k v Hk) as (t' & ? & ? & ?);
              exists t'; elems; by auto).
    + split; [by auto|done].
    + destruct (Hme t' None eq_refl) as [? _]. split; [done|by intros v [= <-]].
    + destruct (Hme t' (Some returnValue) eq_refl) as [? Hv].
      split; [done|]. intros v [= <-]. by apply Hv.
    + destruct (Hme task (Some returnValue) eq_refl) as [? Hv].
      intros k v [[<- <-]|[? Hk]]%lookup_insert_Some.
      * exists task. split; [done|]. split; [done|by apply Hv].
      * by apply Hres.
Qed.

Lemma Sound_init (w : Z) (calls : list (Call RType)) :
  Sound (InitializeTaskExecutor w calls).
Proof.
  constructor; simpl.
  - intros pc t ov Hpc. by apply elem_of_nil in Hpc.
  - intros k v Hk. by rewrite lookup_empty in Hk.
Qed.

Lemma Sound_reachable st0 st : Sound st0 -> reachable st0 st -> Sound st.
Proof. induction 2; eauto using Sound_step. Qed.

Lemma requested_step st st' : Step st st' -> requested st' = requested st.
Proof.
  intros (t & Hs). unfold step in Hs.
  destruct (crashed st) eqn:Hcr; [done|]. unstate st. subst crashed.
  unfold requested, dispatched. destruct t.
  - unfold step_main, JobsDone, has_room, push, pop, close_chan in Hs; simpl in Hs.
    split_step Hs; try done.
    all: simpl; rewrite ?app_nil_r, ?map_app, <- ?app_assoc; simpl;
      rewrite ?map_app, <- ?app_assoc; try done.
  - unfold step_worker, JobsDone, has_room, push, pop, close_chan in Hs; simpl in Hs.
    destruct (pool !! i) as [w|] eqn:Hi; [|done].
    split_step Hs; try done.
    all: simpl; rewrite ?app_nil_r, ?map_app, <- ?app_assoc; simpl;
      rewrite ?map_app, <- ?app_assoc; try done.
Qed.

Lemma requested_reachable st0 st : reachable st0 st -> requested st = requested st0.
Proof.
  induction 1 as [|st0 st1 st Hstep _ IH]; [done|].
  rewrite IH. by apply requested_step.
Qed.

Lemma results_kept_step st st' k :
  Step st st' -> is_Some (results (te st) !! k) -> is_Some (results (te st') !! k).
Proof.
  intros (t & Hs). unfold step in Hs.
  destruct (crashed st) eqn:Hcr; [done|]. unstate st. subst crashed. destruct t.
  - unfold step_main, JobsDone, has_room, push, pop, close_chan in Hs; simpl in Hs.
    split_step Hs; done.
  - unfold step_worker, JobsDone, has_room, push, pop, close_chan in Hs; simpl in Hs.
    destruct (pool !! i) as [w|] eqn:Hi; [|done].
    split_step Hs; try done.
    intros Hk. rewrite lookup_insert_is_Some. destruct (decide (id task = k)); auto.
Qed.


Lemma requested_init (w : Z) (calls : list (Call RType)) st :
  reachable (InitializeTaskExecutor w calls) st -> requested st = submissions calls.
Proof. intros Hreach. by apply requested_reachable in Hreach. Qed.

Lemma results_kept st st' k :
  reachable st st' -> is_Some (results (te st) !! k) -> is_Some (results (te st') !! k).
Proof. induction 1; eauto using results_kept_step. Qed.

Lemma critical_one ws j wj :
  ws !! j = Some wj -> critical wj = true -> 1 <= critical_count ws.
Proof.
  intros (l1 & l2 & -> & _)%lookup_split Hc. count_simp. rewrite Hc.
  pose proof (critical_count_nonneg l1). pose proof (critical_count_nonneg l2). lia.
Qed.

Lemma critical_two ws i j wi wj :
  ws !! i = Some wi -> ws !! j = Some wj -> critical wi = true -> critical wj = true ->
  i <> j -> 2 <= critical_count ws.
Proof.
  revert i j. induction ws as [|w ws IH]; intros i j Hi Hj Hci Hcj Hne; [done|].
  rewrite critical_count_cons. destruct i as [|i], j as [|j]; simpl in *; simplify_eq.
  - rewrite Hci. pose proof (critical_one _ _ _ Hj Hcj). lia.
  - rewrite Hcj. pose proof (critical_one _ _ _ Hi Hci). lia.
  - assert (2 <= critical_count ws) by (eapply (IH i j); eauto).
    destruct (critical w); lia.
Qed.

(** X8.  The mutex of the executor does its work: in every state that a
    program of calls can reach, under every interleaving, [mu] is locked
    exactly when one worker is between its [Lock] and its [Unlock], and no
    two workers are there at once, so that the writes
    [results[task.id] = returnValue] never overlap. *)
Theorem results_written_under_mutex (w : Z) (calls : list (Call RType)) st :
  reachable (InitializeTaskExecutor w calls) st ->
  critical_count (pool st) = (if mu (te st) then 1 else 0)
  /\ forall i j wi wj,
       pool st !! i = Some wi -> pool st !! j = Some wj ->
       critical wi = true -> critical wj = true -> i = j.
Proof.
  intros Hreach.
  pose proof (safe_mutex _ (Safe_reachable _ _ (Safe_init w calls) Hreach)) as Hmu.
  split; [done|]. intros i j wi wj Hi Hj Hci Hcj.
  destruct (decide (i = j)) as [|Hne]; [done|exfalso].
  pose proof (critical_two _ _ _ _ _ Hi Hj Hci Hcj Hne).
  destruct (mu (te st)); lia.
Qed.

Section Jobs.

Variable panics : (unit -> RType) -> option string.






End Jobs.

(** X10.  No task is lost, duplicated or overtaken on its way to the
    workers.  In every reachable state the tasks that the workers have
    taken from [jobs] so far, those waiting in [jobs], the one [AddTask]
    is sending, and the [AddTask] calls still to come are, in this order
    and with their job and description, the [AddTask] calls of the
    caller's program. *)
Theorem tasks_in_program_order (w : Z) (calls : list (Call RType)) st :
  reachable (InitializeTaskExecutor w calls) st ->
  map payload (received st ++ buf (jobs (te st)) ++ sending (main st))
    ++ submissions (todo st)
  = submissions calls.
Proof. apply requested_init. Qed.

(** X11.  Every entry of the results map is the return value of a job
    that the caller added: if [GetResultByTaskId] finds a value under
    [taskid], a worker has received a task with that id, the task is one
    of the caller's [AddTask] calls, and the value is what its job
    returns. *)
Theorem results_are_job_values (w : Z) (calls : list (Call RType)) st taskid v :
  reachable (InitializeTaskExecutor w calls) st ->
  GetResultByTaskId st taskid = Some v ->
  exists t, t ∈ received st /\ id t = taskid /\ v = job t tt
            /\ payload t ∈ submissions calls.
Proof.
  intros Hreach Hk.
  destruct (sound_results _ (Sound_reachable _ _ (Sound_init w calls) Hreach) _ _ Hk)
    as (t & Ht & Hid & Hv).
  exists t. repeat split; try done.
  rewrite <- (requested_init w calls st Hreach). unfold requested, dispatched.
  apply elem_of_app. left. apply list_elem_of_fmap. exists t. split; [done|].
  apply elem_of_app. by left.
Qed.

(** X12.  No step of the caller or of a worker deletes an entry of the
    results map: a task id that has a result keeps one (not always the
    same one) in every later state. *)
Theorem results_never_deleted st st' taskid :
  reachable st st' ->
  is_Some (GetResults st !! taskid) -> is_Some (GetResults st' !! taskid).
Proof. apply results_kept. Qed.

(** X13.  [AddTask] has no guard against a closed queue: called after
    [Close] has closed [jobs], it makes its task and the send on the
    closed channel panics. *)
Theorem AddTask_after_Close_panics job description (rest : list (Call RType)) st :
  crashed st = None -> main st = MIdle ->
  todo st = AddTask job description :: rest ->
  closed (jobs (te st)) = true ->
  exists st1,
    step TMain st = Some st1
    /\ main st1 = MSend (MkTask (jobcounter (te st)) job description)
    /\ step TMain st1 = Some (crash RType "send on closed channel" st1).
Proof.
  intros Hc Hm Ht Hcl. unfold step at 1. rewrite Hc. unfold step_main. rewrite Hm, Ht.
  eexists. split; [done|]. split; [done|].
  unfold step. simpl. rewrite Hc. unfold step_main. simpl. by rewrite Hcl.
Qed.

Lemma no_workers_step st st' :
  workers (te st) <= 0 /\ pool st = [] /\ received st = [] /\ results (te st) = ∅
    /\ ~ (exists i, main st = MInitAdd i)
    /\ (forall i, main st = MInitGo i -> 0 <= i) ->
  Step st st' ->
  workers (te st') <= 0 /\ pool st' = [] /\ received st' = [] /\ results (te st') = ∅
    /\ ~ (exists i, main st' = MInitAdd i)
    /\ (forall i, main st' = MInitGo i -> 0 <= i).
Proof.
  intros (Hw & Hp & Hr & Hres & Hm & Hgo) (t & Hs). unfold step in Hs.
  destruct (crashed st) eqn:Hcr; [done|]. unstate st. subst. destruct t.
  - unfold step_main, JobsDone, has_room, push, pop, close_chan in Hs; simpl in Hs.
    split_step Hs.
    all: try (exfalso; apply Hm; by eexists).
    all: try (specialize (Hgo _ eq_refl); lia).
    all: repeat split; try done; by intros (? & ?).
  - unfold step_worker in Hs; simpl in Hs. done.
Qed.

Lemma no_workers_reachable st st' :
  workers (te st) <= 0 /\ pool st = [] /\ received st = [] /\ results (te st) = ∅
    /\ ~ (exists i, main st = MInitAdd i)
    /\ (forall i, main st = MInitGo i -> 0 <= i) ->
  reachable st st' ->
  workers (te st') <= 0 /\ pool st' = [] /\ received st' = [] /\ results (te st') = ∅
    /\ ~ (exists i, main st' = MInitAdd i)
    /\ (forall i, main st' = MInitGo i -> 0 <= i).
Proof. induction 2; eauto using no_workers_step. Qed.

(** X14.  An executor made with [workerCount <= 0] executes nothing: in
    every reachable state there is no worker, no task has been taken from
    the queue and the results map is empty, so every task added stays in
    the queue or in its [AddTask]. *)
Theorem no_workers_no_results (w : Z) (calls : list (Call RType)) st :
  w <= 0 ->
  reachable (InitializeTaskExecutor w calls) st ->
  pool st = [] /\ received st = [] /\ GetResults st = ∅
  /\ map payload (buf (jobs (te st)) ++ sending (main st)) ++ submissions (todo st)
     = submissions calls.
Proof.
  intros Hw Hreach.
  destruct (no_workers_reachable (InitializeTaskExecutor w calls) st)
    as (_ & Hp & Hr & Hres & _); [|done|].
  { simpl. repeat split; try done; [by intros (? & ?)|intros i [= <-]; lia]. }
  pose proof (requested_init w calls st Hreach) as Hreq.
  unfold requested, dispatched in Hreq. rewrite Hr in Hreq. done.
Qed.
End Proofs.

(** One worker, at its [Unlock] after storing the first result. *)
Lemma results_written_under_mutex_witness :
  exists st,
    exec first_stored (InitializeTaskExecutor 1 two_tasks) = Some st
    /\ critical_count (pool st) = (if mu (te st) then 1 else 0)
    /\ forall i j wi wj,
         pool st !! i = Some wi -> pool st !! j = Some wj ->
         critical wi = true -> critical wj = true -> i = j.
Proof.
  destruct (exec first_stored (InitializeTaskExecutor 1 two_tasks)) as [st|] eqn:E;
    [|by vm_compute in E].
  exists st. split; [done|].
  apply (results_written_under_mutex 1 two_tasks).
  by apply (exec_reachable first_stored).
Defined.


(** Two tasks on one worker, up to [BlockOn]. *)
Lemma tasks_in_program_order_witness :
  exists st,
    exec until_BlockOn (InitializeTaskExecutor 1 two_tasks) = Some st
    /\ map payload (received st ++ buf (jobs (te st)) ++ sending (main st))
         ++ submissions (todo st)
       = submissions two_tasks.
Proof.
  destruct (exec until_BlockOn (InitializeTaskExecutor 1 two_tasks)) as [st|] eqn:E;
    [|by vm_compute in E].
  exists st. split; [done|].
  apply (tasks_in_program_order 1 two_tasks).
  by apply (exec_reachable until_BlockOn).
Defined.

(** The entry under id 0 after the whole of the two-task program. *)
Lemma results_are_job_values_witness :
  exists st v,
    exec one_by_one (InitializeTaskExecutor 1 two_tasks) = Some st
    /\ GetResultByTaskId st 0 = Some v
    /\ exists t, t ∈ received st /\ id t = 0 /\ v = job t tt
                 /\ payload t ∈ submissions two_tasks.
Proof.
  destruct (exec one_by_one (InitializeTaskExecutor 1 two_tasks)) as [st|] eqn:E;
    [|by vm_compute in E].
  destruct (GetResultByTaskId st 0) as [v|] eqn:Hv;
    [|by (vm_compute in E; injection E as <-; vm_compute in Hv)].
  exists st, v. split; [done|]. split; [done|].
  apply (results_are_job_values 1 two_tasks st 0 v); [|done].
  by apply (exec_reachable one_by_one).
Defined.

(** From the first result stored to the end of the second task. *)
Lemma results_never_deleted_witness :
  exists st st',
    exec first_stored (InitializeTaskExecutor 1 two_tasks) = Some st
    /\ exec then_second st = Some st'
    /\ is_Some (GetResults st !! 0) /\ is_Some (GetResults st' !! 0).
Proof.
  destruct (exec first_stored (InitializeTaskExecutor 1 two_tasks)) as [st|] eqn:E;
    [|by vm_compute in E].
  destruct (exec then_second st) as [st'|] eqn:E';
    [|by (vm_compute in E; injection E as <-; vm_compute in E')].
  assert (H0 : is_Some (GetResults st !! 0))
    by (vm_compute in E; injection E as <-; by eexists).
  exists st, st'. split; [done|]. split; [done|]. split; [done|].
  apply (results_never_deleted st st' 0); [|done].
  by apply (exec_reachable then_second).
Defined.

(** [Close(); AddTask(...)] on one worker. *)
Lemma AddTask_after_Close_panics_witness :
  exists st st1,
    exec first_Close (InitializeTaskExecutor 1 add_after_close) = Some st
    /\ closed (jobs (te st)) = true
    /\ step TMain st = Some st1
    /\ main st1 = MSend (MkTask (jobcounter (te st)) job111 "late")
    /\ step TMain st1 = Some (crash Z "send on closed channel" st1).
Proof.
  destruct (exec first_Close (InitializeTaskExecutor 1 add_after_close)) as [st|] eqn:E;
    [|by vm_compute in E].
  assert (Hst : crashed st = None /\ main st = MIdle
                /\ todo st = [AddTask job111 "late"]
                /\ closed (jobs (te st)) = true)
    by (vm_compute in E; by injection E as <-).
  destruct Hst as (H1 & H2 & H3 & H4).
  destruct (AddTask_after_Close_panics job111 "late" [] st H1 H2 H3 H4)
    as (st1 & Ha & Hb & Hc).
  by exists st, st1.
Defined.

(** [InitializeTaskExecutor(0)] and the first [AddTask]. *)
Lemma no_workers_no_results_witness :
  exists st,
    exec (repeat TMain 4) (InitializeTaskExecutor 0 two_tasks) = Some st
    /\ pool st = [] /\ received st = [] /\ GetResults st = ∅
    /\ map payload (buf (jobs (te st)) ++ sending (main st)) ++ submissions (todo st)
       = submissions two_tasks.
Proof.
  destruct (exec (repeat TMain 4) (InitializeTaskExecutor 0 two_tasks)) as [st|] eqn:E;
    [|by vm_compute in E].
  exists st. split; [done|].
  apply (no_workers_no_results 0 two_tasks); [lia|].
  by apply (exec_reachable (repeat TMain 4)).
Defined.

End TaskExecutorExtra.

(** ** The live reloader *)

Module LiveReloaderProofs.

Import Go LiveReloader ListFacts.

Section Proofs.

Variable sha256 : list Byte.byte -> string.

Ltac unstate st :=
  destruct st as [[dirpath [cbuf ccap cclosed] filehashes] main reader monitors log];
  unfold has_room, push, pop in *; simpl in *.

Ltac split_step H :=
  repeat match type of H with
         | context [match ?x with _ => _ end] => destruct x eqn:?
         | context [if ?x then _ else _] => destruct x eqn:?
         end; simplify_eq; simpl in *.

Lemma exec_Step sched fs st0 st :
  exec sha256 fs sched st0 = Some st -> rtc (Step sha256) st0 st.
Proof.
  revert st0. induction sched as [|t sched IH]; simpl; intros st0 H.
  - injection H as ->. constructor.
  - destruct (step sha256 fs t st0) as [st1|] eqn:E; [|done].
    eapply rtc_l; [by exists fs, t|by apply IH].
Qed.

Lemma exec_Step_reading sched read walk st0 st :
  exec sha256 (MkFileSystem read walk) sched st0 = Some st ->
  rtc (Step_reading sha256 read) st0 st.
Proof.
  revert st0. induction sched as [|t sched IH]; simpl; intros st0 H.
  - injection H as ->. constructor.
  - destruct (step sha256 (MkFileSystem read walk) t st0) as [st1|] eqn:E; [|done].
    eapply rtc_l; [by exists walk, t|by apply IH].
Qed.

Lemma Quiet_step read st st' :
  Quiet sha256 read st -> Step_reading sha256 read st st' -> Quiet sha256 read st'.
Proof.
  intros [Hh Hm Hc Hr [Hl1 Hl2]] (walk & t & Hs). unfold reported in *. unstate st.
  subst. destruct t; simpl in Hs.
  - unfold step_main, VisitDir in Hs; simpl in Hs.
    destruct main as [|[|[path [|]|path err] rest]]; simpl in Hs; simplify_eq.
    all: constructor; simpl; try done.
    apply Forall_app. split; [done|]. by repeat constructor.
  - unfold step_reader in Hs; simpl in Hs. done.
  - unfold step_monitor, check, has_room, push in Hs; simpl in Hs.
    destruct (monitors !! i) as [m|] eqn:Hi; [|done].
    apply lookup_split in Hi as (l1 & l2 & -> & Hins).
    apply Forall_app in Hm as [Hm1 Hm2]. apply Forall_cons in Hm2 as [Hme Hm2].
    split_step Hs; rewrite ?Hins in *; clear Hins.
    all: simpl in Hme.
    all: try (apply bool_decide_eq_false in Heqb; exfalso; apply Heqb;
              rewrite Hme; by apply Hh).
    all: constructor; simpl; try done.
    all: try (apply Forall_app; split; [done|]; apply Forall_cons; split; [|done]; simpl).
    all: try done.
    + by rewrite <- Hme.
    + unfold reported; simpl. rewrite omap_app, Hl1. split; [done|].
      rewrite elem_of_app, elem_of_cons, elem_of_nil. by intros [?|[?|[]]].
    + by rewrite <- Hme.
    + intros p h [[<- <-]|[? Hk]]%lookup_insert_Some; [done|by apply Hh].
Qed.

Lemma Quiet_start read dir : Quiet sha256 read (start dir).
Proof.
  constructor; simpl; try done.
  unfold reported; simpl. split; [done|].
  rewrite elem_of_cons, elem_of_nil. by intros [?|[]].
Qed.

Lemma reported_elem st filepath : reported st = [] -> Changed filepath ∉ log st.
Proof.
  unfold reported. induction (log st) as [|l ls IH]; intros Hl Hin.
  - by apply elem_of_nil in Hin.
  - apply elem_of_cons in Hin as [<-|Hin]; [done|].
    destruct l; simpl in Hl; try done; by apply IH.
Qed.

(** X15.  No false alarm: as long as the files keep their contents,
    nothing is reported.  However often the directory is walked, whatever
    the walks find and however the goroutines interleave, from the start
    of [main] the [changes] channel stays empty, no goroutine is sending
    on it, the reader waits at its receive, and neither "Changed" nor
    "Rerunning application" is logged.  (A read that fails counts as
    contents too: it must fail in the same way every time.) *)
Theorem unchanged_files_never_reported read dir st :
  rtc (Step_reading sha256 read) (start dir) st ->
  buf (changes (lr st)) = []
  /\ reporting st = []
  /\ reader st = RRecv
  /\ (forall filepath, Changed filepath ∉ log st) /\ Rerunning ∉ log st.
Proof.
  intros Hrun.
  assert (HQ : Quiet sha256 read st).
  { pose proof (Quiet_start read dir) as H0. revert H0.
    induction Hrun; eauto using Quiet_step. }
  destruct HQ as [Hh Hm Hc Hr [Hl1 Hl2]].
  split; [done|]. split; [|split; [done|split; [|done]]].
  - unfold reporting. rewrite Hc, Hr. simpl. rewrite app_nil_r.
    induction Hm as [|m ms Hm _ IH]; [done|].
    simpl. by destruct m.
  - intros filepath. by apply reported_elem.
Qed.


Ltac elems := rewrite ?elem_of_app, ?elem_of_cons, ?elem_of_nil in *.

Lemma elem_mid_l {A} (x y : A) l1 l2 : x ∈ l1 -> x ∈ l1 ++ y :: l2.
Proof. elems. auto. Qed.
Lemma elem_mid_r {A} (x y : A) l1 l2 : x ∈ l2 -> x ∈ l1 ++ y :: l2.
Proof. elems. auto. Qed.
Lemma elem_mid {A} (x : A) l1 l2 : x ∈ l1 ++ x :: l2.
Proof. elems. auto. Qed.
Lemma elem_end_l {A} (x y : A) l : x ∈ l -> x ∈ l ++ [y].
Proof. elems. auto. Qed.
Lemma elem_end {A} (x : A) l : x ∈ l ++ [x].
Proof. elems. auto. Qed.
Lemma elem_head {A} (x : A) l : x ∈ x :: l.
Proof. elems. auto. Qed.
Lemma elem_tail {A} (x y : A) l : x ∈ l -> x ∈ y :: l.
Proof. elems. auto. Qed.

Ltac transfer Hp :=
  destruct Hp as [(? & Hp)|[Hp|[Hp|Hp]]]; elems;
  repeat match goal with H : _ \/ _ |- _ => destruct H end;
  simplify_eq; try done;
  try by eauto 10 using @elem_mid_l, @elem_mid_r, @elem_mid, @elem_end_l, @elem_end,
                        @elem_tail, @elem_head.

Lemma announced_step st st' :
  (forall p, announced st p -> is_Some (filehashes (lr st) !! p)) ->
  Step sha256 st st' ->
  forall p, announced st' p -> is_Some (filehashes (lr st') !! p).
Proof.
  intros Hk (fs & t & Hs) p Hp. unfold announced in *. unstate st.
  destruct t; simpl in Hs.
  - unfold step_main, VisitDir in Hs; simpl in Hs.
    destruct main as [|[|[path [|]|path err] rest]]; simpl in Hs; simplify_eq; simpl in *.
    all: apply Hk; transfer Hp.
  - unfold step_reader in Hs; simpl in Hs. split_step Hs.
    all: apply Hk; transfer Hp.
  - unfold step_monitor, check, has_room, push in Hs; simpl in Hs.
    destruct (monitors !! i) as [m|] eqn:Hi; [|done].
    apply lookup_split in Hi as (l1 & l2 & -> & Hins).
    split_step Hs; rewrite ?Hins in *; clear Hins.
    all: try (apply Hk; by transfer Hp).
    + destruct (decide (p = path)) as [->|Hne]; [by eexists|].
      apply Hk. by transfer Hp.
    + rewrite lookup_insert_is_Some.
      destruct (decide (path = p)) as [|Hne]; [by left|right].
      split; [done|]. apply Hk. by transfer Hp.
Qed.

(** X16.  The first look at a file never reports it.  Whatever the file
    system answers and however the goroutines interleave, a path that a
    goroutine is sending on [changes], that waits in [changes], that the
    reader holds, or that has its "Changed" line in the log, has a hash
    in [filehashes]: an earlier [MonitorFileChanges] of the same path has
    got as far as its [Store]. *)
Theorem reported_paths_have_a_hash dir st filepath :
  rtc (Step sha256) (start dir) st ->
  announced st filepath ->
  is_Some (filehashes (lr st) !! filepath).
Proof.
  intros Hrun. revert filepath.
  assert (H0 : forall p, announced (start dir) p ->
                 is_Some (filehashes (lr (start dir)) !! p)).
  { intros p Hp. exfalso. unfold announced, start in Hp. simpl in Hp.
    destruct Hp as [(bs & Hp)|[Hp|[Hp|Hp]]];
      [by apply elem_of_nil in Hp|by apply elem_of_nil in Hp|done|].
    apply elem_of_cons in Hp as [?|Hp]; [done|by apply elem_of_nil in Hp]. }
  revert H0. induction Hrun; eauto using announced_step.
Qed.

(** X17.  [MonitorFileChanges] run on its own.  From its first statement
    and with no other goroutine in between, it ends after four steps, or
    five when it reports, with the hash of what [os.ReadFile] gave stored
    under the path.  The path is sent on [changes] exactly when a hash
    was stored for it before and differs from the new one (the channel
    having room for it); a failed read is logged and what it returned is
    hashed and stored all the same. *)
Theorem MonitorFileChanges_alone fs st i path :
  monitors st !! i = Some (MoRead path) ->
  (differs (filehashes (lr st)) path (sha256 (ReadFile fs path).1) = true ->
   has_room (changes (lr st)) = true) ->
  let c := (ReadFile fs path).1 in
  let err := (ReadFile fs path).2 in
  let report := differs (filehashes (lr st)) path (sha256 c) in
  exists st',
    exec sha256 fs (repeat (TMonitor i) (if report then 5 else 4)) st = Some st'
    /\ filehashes (lr st') = <[path := sha256 c]> (filehashes (lr st))
    /\ buf (changes (lr st')) = buf (changes (lr st)) ++ (if report then [path] else [])
    /\ log st' = log st ++ match err with Some e => [ErrorOccured e] | None => [] end
    /\ monitors st' = <[i := MoExited]> (monitors st)
    /\ main st' = main st /\ reader st' = reader st.
Proof.
  intros Hi Hroom. simpl. unfold differs in *.
  assert (Hlt : (i < length (monitors st))%nat) by (by eapply lookup_lt_Some).
  destruct (ReadFile fs path) as [c err] eqn:Hread. unstate st.
  destruct (filehashes !! path) as [h|] eqn:Hh;
    [destruct (bool_decide (h = sha256 c)) eqn:Hb|]; simpl in *.
  all: try rewrite (Hroom eq_refl).
  all: unfold step_monitor, check, has_room, push; simpl.
  all: rewrite Hi, Hread; simpl.
  all: rewrite list_lookup_insert_eq by done; simpl.
  all: destruct err as [e|]; simpl.
  all: rewrite list_lookup_insert_eq by (by rewrite ?length_insert); simpl.
  all: rewrite ?Hh; simpl; rewrite ?Hb; simpl.
  all: rewrite list_lookup_insert_eq by (by rewrite ?length_insert); simpl.
  all: try rewrite (Hroom eq_refl); simpl.
  all: rewrite ?list_lookup_insert_eq by (by rewrite ?length_insert); simpl.
  all: eexists; split; [reflexivity|]; simpl.
  all: rewrite ?list_insert_insert_eq, ?app_nil_r; done.
Qed.

End Proofs.

(** One file, looked at twice with the same contents. *)
Lemma unchanged_files_never_reported_witness :
  exists st,
    exec toy_hash (one_file old_contents) seen_twice (start "../") = Some st
    /\ buf (changes (lr st)) = []
    /\ reporting st = []
    /\ reader st = RRecv
    /\ (forall filepath, Changed filepath ∉ log st) /\ Rerunning ∉ log st.
Proof.
  destruct (exec toy_hash (one_file old_contents) seen_twice (start "../"))
    as [st|] eqn:E; [|by vm_compute in E].
  exists st. split; [done|].
  apply (unchanged_files_never_reported toy_hash (fun _ => (old_contents, None)) "../").
  by apply (exec_Step_reading toy_hash seen_twice _ (WalkDir (one_file old_contents))).
Defined.

(** One file, looked at a second time after its contents have changed. *)
Lemma reported_paths_have_a_hash_witness :
  exists st st',
    exec toy_hash (one_file old_contents) second_look (start "../") = Some st
    /\ exec toy_hash (one_file new_contents) (monitor_reporting 1) st = Some st'
    /\ buf (changes (lr st')) = ["main.go"%string]
    /\ is_Some (filehashes (lr st') !! "main.go"%string).
Proof.
  destruct (exec toy_hash (one_file old_contents) second_look (start "../"))
    as [st|] eqn:E; [|by vm_compute in E].
  destruct (exec toy_hash (one_file new_contents) (monitor_reporting 1) st)
    as [st'|] eqn:E'; [|by (vm_compute in E; injection E as <-; vm_compute in E')].
  assert (Hbuf : buf (changes (lr st')) = ["main.go"%string])
    by (vm_compute in E; injection E as <-; vm_compute in E'; by injection E' as <-).
  exists st, st'. split; [done|]. split; [done|]. split; [done|].
  apply (reported_paths_have_a_hash toy_hash "../").
  - etransitivity; [by apply (exec_Step toy_hash second_look (one_file old_contents))|].
    by apply (exec_Step toy_hash (monitor_reporting 1) (one_file new_contents)).
  - right. left. rewrite Hbuf. apply elem_of_cons. by left.
Defined.

(** The second look at the changed file. *)
Lemma MonitorFileChanges_alone_witness :
  exists st st',
    exec toy_hash (one_file old_contents) second_look (start "../") = Some st
    /\ exec toy_hash (one_file new_contents) (monitor_reporting 1) st = Some st'
    /\ filehashes (lr st')
       = <["main.go"%string := toy_hash new_contents]> (filehashes (lr st))
    /\ buf (changes (lr st')) = buf (changes (lr st)) ++ ["main.go"%string].
Proof.
  destruct (exec toy_hash (one_file old_contents) second_look (start "../"))
    as [st|] eqn:E; [|by vm_compute in E].
  assert (Hst : monitors st !! 1%nat = Some (MoRead "main.go")
                /\ has_room (changes (lr st)) = true
                /\ differs (filehashes (lr st)) "main.go" (toy_hash new_contents) = true)
    by (vm_compute in E; by injection E as <-).
  destruct Hst as (H1 & H2 & H3).
  destruct (MonitorFileChanges_alone toy_hash (one_file new_contents) st 1 "main.go"
              H1 (fun _ => H2)) as (st' & Hexec & Hh & Hc & _).
  simpl in Hexec, Hh, Hc. rewrite H3 in Hexec, Hc.
  by exists st, st'.
Defined.

End LiveReloaderProofs.
